(** * Chappel beer festival list: extraction, classification, filtering,
      sorting and the availability overlay of [BeerFestivalApp]

    A shallow embedding of the methods of the class [BeerFestivalApp] and
    the properties of its specification proved about them.  The script
    exists in several revisions; the one embedded is the latest, with the
    availability overlay and the toggle that reads the store first.  Its
    extractor, [parseABV] and classifier are also those of the revision
    without the overlay; the earlier toggle is embedded beside the latest.

    Conventions of the embedding.
    - A JavaScript string is a sequence of code units.  The development
      carries the code units 0..255 (the ISO-8859-1 range) as [ascii]; the
      case mapping and the white space of [trim] are the ones JavaScript
      defines on that range.
    - A JavaScript number is an IEEE 754 binary64 value, [spec_float] with
      precision 53 and maximal exponent 1024.
    - A method that can throw returns a [Completion]; a method that mutates
      [this] takes the application state and returns the new one. *)

From Stdlib Require Import ZArith Bool List Ascii String DecimalString Lia.
From Stdlib Require Import Floats.SpecFloat Floats.PrimFloat Floats.FloatOps.
From Stdlib Require Import Sorting.Permutation Sorting.Sorted.
From stdpp Require Import base option list strings gmap sorting.

Local Open Scope Z_scope.
Local Open Scope string_scope.

(** ** JavaScript strings *)

Module Js.

(** Code unit of a character. *)
Definition code (c : ascii) : N := N_of_ascii c.

(** White space and line terminators removed by [String.prototype.trim]:
    TAB, LF, VT, FF, CR, SP and NBSP. *)
Definition isWhiteSpace (c : ascii) : bool :=
  let n := code c in
  ((9 <=? n) && (n <=? 13) || (n =? 32) || (n =? 160))%N.

Fixpoint trimStart (s : string) : string :=
  match s with
  | EmptyString => EmptyString
  | String c s' => if isWhiteSpace c then trimStart s' else s
  end.

Fixpoint trimEnd (s : string) : string :=
  match s with
  | EmptyString => EmptyString
  | String c s' =>
      match trimEnd s' with
      | EmptyString => if isWhiteSpace c then EmptyString else String c EmptyString
      | t => String c t
      end
  end.

(** [s.trim()] *)
Definition trim (s : string) : string := trimEnd (trimStart s).

(** Lower-case mapping of one code unit: A..Z, and the Latin-1 capitals
    U+00C0..U+00DE except the multiplication sign U+00D7. *)
Definition lowerChar (c : ascii) : ascii :=
  let n := code c in
  if ((65 <=? n) && (n <=? 90) || (192 <=? n) && (n <=? 222) && negb (n =? 215))%N
  then ascii_of_N (n + 32) else c.

(** [s.toLowerCase()] *)
Fixpoint toLowerCase (s : string) : string :=
  match s with
  | EmptyString => EmptyString
  | String c s' => String (lowerChar c) (toLowerCase s')
  end.

(** [s.startsWith(k)] *)
Fixpoint startsWith (s k : string) : bool :=
  match k, s with
  | EmptyString, _ => true
  | String a k', String b s' => Ascii.eqb a b && startsWith s' k'
  | String _ _, EmptyString => false
  end.

(** [s.includes(k)]: [k] occurs in [s] at some position. *)
Fixpoint includes (s k : string) : bool :=
  startsWith s k ||
  match s with
  | EmptyString => false
  | String _ s' => includes s' k
  end.

(** Truthiness of a string: the empty string is the only falsy one. *)
Definition truthy (s : string) : bool :=
  match s with EmptyString => false | String _ _ => true end.

(** [a < b] on strings: lexicographic order of the code units. *)
Fixpoint strLt (a b : string) : bool :=
  match a, b with
  | _, EmptyString => false
  | EmptyString, String _ _ => true
  | String x a', String y b' =>
      (code x <? code y)%N || (code x =? code y)%N && strLt a' b'
  end.

(** *** Numbers *)

Definition number := spec_float.

Definition prec : Z := 53.
Definition emax : Z := 1024.

Definition NaN : number := S754_nan.
Definition zero : number := S754_zero false.

(** The Number value of the integer [z] (exact below 2^53). *)
Definition ofZ (z : Z) : number := binary_normalize prec emax z 0 false.

(** The Number value of [m / 10^k] for [0 <= m]: the quotient is rounded
    once, to nearest with ties to even. *)
Definition ofDecimal (m : Z) (k : nat) : number :=
  match m with
  | Z0 => zero
  | Zpos _ =>
      let '(q, e, l) := SFdiv_core_binary prec emax m 0 (10 ^ Z.of_nat k) 0 in
      binary_round_aux prec emax false q e l
  | Zneg _ => NaN
  end.

(** [a < b], [a <= b] and [a >= b] on numbers; every comparison with NaN
    is false. *)
Definition lt (a b : number) : bool := SFltb a b.
Definition le (a b : number) : bool := SFleb a b.
Definition ge (a b : number) : bool := SFleb b a.
Definition gt (a b : number) : bool := SFltb b a.

(** Truthiness of a number: zero of either sign and NaN are falsy. *)
Definition numTruthy (a : number) : bool :=
  match a with
  | S754_zero _ | S754_nan => false
  | _ => true
  end.

(** [a || 0] *)
Definition orZero (a : number) : number := if numTruthy a then a else zero.

Definition isDigit (c : ascii) : bool :=
  let n := code c in ((48 <=? n) && (n <=? 57))%N.

Definition digitValue (c : ascii) : Z := Z.of_N (code c) - 48.

(** Longest prefix of decimal digits and what follows it. *)
Fixpoint spanDigits (s : string) : string * string :=
  match s with
  | EmptyString => (EmptyString, EmptyString)
  | String c s' =>
      if isDigit c
      then let '(d, r) := spanDigits s' in (String c d, r)
      else (EmptyString, s)
  end.

Fixpoint digitsValue (acc : Z) (s : string) : Z :=
  match s with
  | EmptyString => acc
  | String c s' => digitsValue (acc * 10 + digitValue c) s'
  end.

(** [parseFloat(s)] on the strings the script passes to it: a prefix
    [digits], [digits.] or [digits.digits] (or [.digits]) is read as a
    decimal numeral and what follows is ignored; a string with no such
    prefix gives NaN.  Leading white space, signs, exponent parts and
    [Infinity] do not occur in those strings and are not read. *)
Definition parseFloat (s : string) : number :=
  let '(ip, r) := spanDigits s in
  let fp := match r with
            | String "." r' => fst (spanDigits r')
            | _ => EmptyString
            end in
  if truthy ip || truthy fp
  then ofDecimal (digitsValue 0 (ip +:+ fp)) (String.length fp)
  else NaN.

(** [parseFloat(x)] for a number [x]: the number is converted to a string
    and read back, which returns [x], except that negative zero prints as
    ["0"]. *)
Definition parseFloatNum (x : number) : number :=
  match x with
  | S754_zero _ => zero
  | _ => x
  end.

End Js.

(** ** Completions *)

Inductive JsError :=
  | Error (message : string)
  | TypeError (message : string).

Inductive Completion (A : Type) :=
  | Normal (value : A)
  | Throw (e : JsError).
Arguments Normal {A} value.
Arguments Throw {A} e.

(** ** Record extractor *)

(** The capture of the leftmost match of the pattern of [parseABV] in
    [abvText], if any: one or more digits, an optional dot, any number of
    digits.  The match starts at the first digit of the text; the first
    group takes the digits there, then a dot if one follows, then the
    digits after the dot. *)
Definition tokenAt (s : string) : string :=
  let '(d1, r1) := Js.spanDigits s in
  match r1 with
  | String "." r2 => d1 +:+ String "." (fst (Js.spanDigits r2))
  | _ => d1
  end.

Fixpoint matchNumber (s : string) : option string :=
  match s with
  | EmptyString => None
  | String c s' => if Js.isDigit c then Some (tokenAt s) else matchNumber s'
  end.

Definition parseABV (abvText : string) : Js.number :=
  match matchNumber abvText with
  | Some m1 => Js.parseFloat m1
  | None => Js.zero
  end.

(** The record pushed for a qualifying row. *)
Record BeerEntry := {
  brewery : string;
  beer : string;
  style : string;
  abv : Js.number;
  location : string;
  bar : string
}.

(** A row of the parsed document: the text content of its [td] cells, in
    document order. *)
Definition Row := list string.

(** [cells[i].textContent] for [i] below [cells.length]. *)
Definition textContent (cells : Row) (i : nat) : string := nth i cells EmptyString.

(** The body of the loop of [parseHtmlData] for one row: the entries
    collected so far, and the row. *)
Definition parseRow (beerData : list BeerEntry) (cells : Row) : list BeerEntry :=
  if (6 <=? length cells)%nat then
    let brewery := Js.trim (textContent cells 0) in
    let beer := Js.trim (textContent cells 1) in
    let style := Js.trim (textContent cells 2) in
    let abvText := Js.trim (textContent cells 3) in
    let location := Js.trim (textContent cells 4) in
    let bar := Js.trim (textContent cells 5) in
    if Js.truthy brewery && Js.truthy beer && negb (String.eqb brewery "Brewery") then
      let beerEntry := {| brewery := brewery; beer := beer; style := style;
                          abv := parseABV abvText; location := location; bar := bar |} in
      (beerData ++ [beerEntry])%list
    else beerData
  else beerData.

(** [for (let row of rows) { ... }] *)
Fixpoint parseRows (beerData : list BeerEntry) (rows : list Row) : list BeerEntry :=
  match rows with
  | [] => beerData
  | cells :: rows' => parseRows (parseRow beerData cells) rows'
  end.

(** ** Style classifier *)

Record CoreType := { keywords : list string; category : string }.

Definition coreTypes : list CoreType := [
  {| keywords := ["ipa"; "india pale ale"]; category := "IPA" |};
  {| keywords := ["bitter"]; category := "Bitter" |};
  {| keywords := ["golden ale"; "golden"]; category := "Golden Ale" |};
  {| keywords := ["pale ale"]; category := "Pale Ale" |};
  {| keywords := ["amber ale"]; category := "Amber Ale" |};
  {| keywords := ["brown ale"]; category := "Brown Ale" |};
  {| keywords := ["mild"]; category := "Mild" |};
  {| keywords := ["old ale"]; category := "Old Ale" |};
  {| keywords := ["strong ale"]; category := "Strong Ale" |};
  {| keywords := ["barley wine"]; category := "Barley Wine" |};
  {| keywords := ["stout"]; category := "Stout" |};
  {| keywords := ["porter"]; category := "Porter" |};
  {| keywords := ["wheat"; "weizen"; "witbier"]; category := "Wheat Beer" |};
  {| keywords := ["pilsner"; "pils"]; category := "Pilsner" |};
  {| keywords := ["lager"]; category := "Lager" |};
  {| keywords := ["saison"]; category := "Saison" |};
  {| keywords := ["sour"; "gose"; "lambic"]; category := "Sour" |};
  {| keywords := ["cider"]; category := "Cider" |};
  {| keywords := ["perry"]; category := "Perry" |};
  {| keywords := ["ale"]; category := "Ale" |}
].

(** The inner loop: does some keyword of the list occur in [lowerStyle]? *)
Fixpoint anyKeyword (lowerStyle : string) (kws : list string) : bool :=
  match kws with
  | [] => false
  | keyword :: kws' =>
      if Js.includes lowerStyle keyword then true else anyKeyword lowerStyle kws'
  end.

(** The outer loop: the category of the first type with such a keyword. *)
Fixpoint findCoreType (lowerStyle : string) (types : list CoreType) : option string :=
  match types with
  | [] => None
  | type :: types' =>
      if anyKeyword lowerStyle (keywords type) then Some (category type)
      else findCoreType lowerStyle types'
  end.

(** [extractCleanBeerStyle(styleText)]; [None] is the [null] returned when
    no core type matches. *)
Definition extractCleanBeerStyle (styleText : string) : option string :=
  let lowerStyle := Js.toLowerCase styleText in
  findCoreType lowerStyle coreTypes.

(** ** Application state *)

Inductive Direction := asc | desc.

Record SortState := { column : option string; direction : Direction }.

(** A value of the map [beerAvailability].  [updated_at] is the time in
    milliseconds since the epoch; the script holds its ISO 8601 rendering
    ([toISOString]), which determines it and is ordered like it. *)
Record AvailabilityInfo := {
  is_available : bool;
  updated_by : string;
  updated_at : Z
}.

Record App := {
  beers : list BeerEntry;
  filteredBeers : list BeerEntry;
  currentSort : SortState;
  beerAvailability : gmap string AvailabilityInfo;
  (** [this.supabase] is a client ([true]) or [null] ([false]) *)
  supabase : bool
}.

(** The state the constructor builds. *)
Definition initialApp (client : bool) : App :=
  {| beers := []; filteredBeers := [];
     currentSort := {| column := None; direction := asc |};
     beerAvailability := ∅; supabase := client |}.

Definition setBeers (a : App) (l : list BeerEntry) : App :=
  {| beers := l; filteredBeers := l; currentSort := currentSort a;
     beerAvailability := beerAvailability a; supabase := supabase a |}.

Definition setFilteredBeers (a : App) (l : list BeerEntry) : App :=
  {| beers := beers a; filteredBeers := l; currentSort := currentSort a;
     beerAvailability := beerAvailability a; supabase := supabase a |}.

Definition setCurrentSort (a : App) (s : SortState) : App :=
  {| beers := beers a; filteredBeers := filteredBeers a; currentSort := s;
     beerAvailability := beerAvailability a; supabase := supabase a |}.

Definition setBeerAvailability (a : App) (m : gmap string AvailabilityInfo) : App :=
  {| beers := beers a; filteredBeers := filteredBeers a; currentSort := currentSort a;
     beerAvailability := m; supabase := supabase a |}.

(** [parseHtmlData], from the rows of the parsed document on: the state
    after the call and its completion.  Filling the filter controls and
    rendering are left out. *)
Definition parseHtmlData (a : App) (rows : list Row) : App * Completion unit :=
  let beerData := parseRows [] rows in
  if (length beerData =? 0)%nat then
    (a, Throw (Error "No beer data found in the response"))
  else
    (setBeers a beerData, Normal tt).

(** ** Availability store *)

Module Store.

(** A row of the table [beer_availability]. *)
Record Item := {
  brewery : string;
  beer_name : string;
  is_available : bool;
  updated_by : string;
  updated_at : Z
}.

(** Modelled from the spec: the remote availability store, which is not
    part of the script.  It is a table keyed by [(brewery, beer_name)] that
    answers a select of all rows, a point lookup by key, an insert and an
    update; a store that cannot be reached answers every call with an
    error. *)
Record t := { reachable : bool; rows : list Item }.

(** What a call resolves to: [{ data, error }]. *)
Record Response (A : Type) := { data : option A; error : option string }.
Arguments data {A} r.
Arguments error {A} r.

Definition ok {A} (x : A) : Response A := {| data := Some x; error := None |}.
Definition failed {A} (msg : string) : Response A := {| data := None; error := Some msg |}.

(** [.eq('brewery', b).eq('beer_name', n)] *)
Definition hasKey (b n : string) (r : Item) : bool :=
  String.eqb (brewery r) b && String.eqb (beer_name r) n.

(** [.select(...)] of the whole table. *)
Definition selectAll (s : t) : Response (list Item) :=
  if reachable s then ok (rows s) else failed "fetch failed".

(** [.select('*').eq(...).eq(...).single()]: the row with the key, an
    error when there is not exactly one. *)
Definition selectSingle (s : t) (b n : string) : Response Item :=
  if reachable s then
    match List.filter (hasKey b n) (rows s) with
    | [r] => ok r
    | _ => failed "JSON object requested, multiple (or no) rows returned"
    end
  else failed "fetch failed".

(** [.update({...}).eq(...).eq(...)] *)
Definition update (s : t) (b n : string) (status : bool) (by_ : string) (at_ : Z)
  : t * option string :=
  if reachable s then
    ({| reachable := true;
        rows := List.map (fun r =>
                  if hasKey b n r
                  then {| brewery := brewery r; beer_name := beer_name r;
                          is_available := status; updated_by := by_; updated_at := at_ |}
                  else r) (rows s) |}, None)
  else (s, Some "fetch failed").

(** [.insert({...})]: refused when the key is taken. *)
Definition insert (s : t) (r : Item) : t * option string :=
  if reachable s then
    if existsb (hasKey (brewery r) (beer_name r)) (rows s)
    then (s, Some "duplicate key value violates unique constraint")
    else ({| reachable := true; rows := (rows s ++ [r])%list |}, None)
  else (s, Some "fetch failed").

(** [.upsert({...}, { onConflict: 'brewery,beer_name' })]: an update of the
    row with the key, an insert when there is none. *)
Definition upsert (s : t) (r : Item) : t * option string :=
  if existsb (hasKey (brewery r) (beer_name r)) (rows s)
  then update s (brewery r) (beer_name r) (is_available r) (updated_by r) (updated_at r)
  else insert s r.

(** The table is keyed: no two rows have the same [(brewery, beer_name)]. *)
Definition keyed (s : t) : Prop :=
  NoDup (List.map (fun r => (brewery r, beer_name r)) (rows s)).

(** The availability the store holds for a key; no row means unavailable. *)
Definition status (s : t) (b n : string) : bool :=
  match List.find (hasKey b n) (rows s) with
  | Some r => is_available r
  | None => false
  end.

(** The time of the last update the store holds for a key. *)
Definition stamp (s : t) (b n : string) : option Z :=
  match List.find (hasKey b n) (rows s) with
  | Some r => Some (updated_at r)
  | None => None
  end.

End Store.

(** ** Availability overlay *)

(** The key of a beer in [beerAvailability]: the template
    [`${brewery}|${beer}`]. *)
Definition availabilityKey (brewery beer : string) : string :=
  brewery +:+ "|" +:+ beer.

(** [data.forEach(item => this.beerAvailability.set(key, {...}))] *)
Definition setItem (m : gmap string AvailabilityInfo) (item : Store.Item)
  : gmap string AvailabilityInfo :=
  let key := availabilityKey (Store.brewery item) (Store.beer_name item) in
  <[ key := {| is_available := Store.is_available item;
               updated_by := Store.updated_by item;
               updated_at := Store.updated_at item |} ]> m.

(** [loadBeerAvailability()]: nothing without a client or on an error;
    otherwise the map is cleared and filled from the rows, a later row
    replacing an earlier one with the same key.  (With neither an error nor
    rows the map is cleared before [data.forEach] throws.) *)
Definition loadBeerAvailability (s : Store.t) (a : App) : App :=
  if negb (supabase a) then a
  else
    let r := Store.selectAll s in
    match Store.error r, Store.data r with
    | Some _, _ => a
    | None, Some data => setBeerAvailability a (fold_left setItem data ∅)
    | None, None => setBeerAvailability a ∅
    end.

Definition getBeerAvailabilityInfo (a : App) (b : BeerEntry) : option AvailabilityInfo :=
  let key := availabilityKey (brewery b) (beer b) in
  beerAvailability a !! key.

Definition getBeerAvailability (a : App) (b : BeerEntry) : bool :=
  let key := availabilityKey (brewery b) (beer b) in
  match beerAvailability a !! key with
  | Some data => is_available data
  | None => false
  end.

(** The browser and the world around the application: the application
    state, the item [beer_tracker_user_id] of the local storage, and the
    remote store. *)
Record World := {
  app : App;
  userIdItem : option string;
  store : Store.t
}.

(** What a call reads from its environment: the clock ([new Date()], in
    milliseconds) and the six characters drawn from [Math.random()]. *)
Record Env := { now : Z; random : string }.

(** [getUserId()]: the stored identifier, or a new one that is stored. *)
Definition getUserId (item : option string) (env : Env) : string * option string :=
  match item with
  | Some userId =>
      if Js.truthy userId then (userId, item)
      else let userId := "User_" +:+ random env in (userId, Some userId)
  | None => let userId := "User_" +:+ random env in (userId, Some userId)
  end.

(** [toggleBeerAvailability(beer)], latest revision: the current status is
    read from the store, the negated status is written by an update when
    the row exists and by an insert otherwise, and the map is loaded again. *)
Definition toggleBeerAvailability (w : World) (b : BeerEntry) (env : Env) : World :=
  if negb (supabase (app w)) then w
  else
    let r := Store.selectSingle (store w) (brewery b) (beer b) in
    let '(currentStatus, recordExists) :=
      match Store.error r, Store.data r with
      | None, Some currentData => (Store.is_available currentData, true)
      | _, _ => (false, false)
      end in
    let newStatus := negb currentStatus in
    let '(userId, item) := getUserId (userIdItem w) env in
    let '(store', error) :=
      if recordExists then
        Store.update (store w) (brewery b) (beer b) newStatus userId (now env)
      else
        Store.insert (store w)
          {| Store.brewery := brewery b; Store.beer_name := beer b;
             Store.is_available := newStatus; Store.updated_by := userId;
             Store.updated_at := now env |} in
    match error with
    | Some _ => {| app := app w; userIdItem := item; store := store' |}
    | None =>
        {| app := loadBeerAvailability store' (app w); userIdItem := item; store := store' |}
    end.

(** [toggleBeerAvailability(beer)], earlier revision: the current status
    is taken from the map, as the entry itself (an object, which is truthy)
    and not its [is_available]; the negated status is written by an upsert
    and set in the map. *)
Definition toggleBeerAvailability_upsert (w : World) (b : BeerEntry) (env : Env) : World :=
  if negb (supabase (app w)) then w
  else
    let key := availabilityKey (brewery b) (beer b) in
    let currentStatus :=
      match beerAvailability (app w) !! key with
      | Some _ => true
      | None => false
      end in
    let newStatus := negb currentStatus in
    let '(userId, item) := getUserId (userIdItem w) env in
    let '(store', error) :=
      Store.upsert (store w)
        {| Store.brewery := brewery b; Store.beer_name := beer b;
           Store.is_available := newStatus; Store.updated_by := userId;
           Store.updated_at := now env |} in
    match error with
    | Some _ => {| app := app w; userIdItem := item; store := store' |}
    | None =>
        {| app := setBeerAvailability (app w)
                    (<[ key := {| is_available := newStatus; updated_by := userId;
                                  updated_at := now env |} ]> (beerAvailability (app w)));
           userIdItem := item; store := store' |}
    end.

(** ** Filter engine *)

(** The values [filterBeers] reads from the controls; [abvMin] and [abvMax]
    are the numbers [parseFloat] makes of the two sliders' values. *)
Record Elements := {
  searchInput : string;
  barFilter : string;
  styleFilter : string;
  availabilityFilter : string;
  abvMin : Js.number;
  abvMax : Js.number
}.

(** [x.toLowerCase()] for the result [x] of [extractCleanBeerStyle], which
    throws on [null]. *)
Definition categoryToLowerCase (x : option string) : Completion string :=
  match x with
  | Some c => Normal (Js.toLowerCase c)
  | None => Throw (TypeError "Cannot read properties of null (reading 'toLowerCase')")
  end.

Definition matchesSearch (searchTerm : string) (b : BeerEntry) : bool :=
  negb (Js.truthy searchTerm) ||
  Js.includes (Js.toLowerCase (brewery b)) searchTerm ||
  Js.includes (Js.toLowerCase (beer b)) searchTerm ||
  Js.includes (Js.toLowerCase (style b)) searchTerm ||
  Js.includes (Js.toLowerCase (location b)) searchTerm.

Definition matchesBar (selectedBar : string) (b : BeerEntry) : bool :=
  negb (Js.truthy selectedBar) || String.eqb (bar b) selectedBar.

(** The [||] chain evaluates the classifier's result only when a style is
    selected, and the raw style only when the category does not contain it. *)
Definition matchesStyle (selectedStyle : string) (b : BeerEntry) : Completion bool :=
  if negb (Js.truthy selectedStyle) then Normal true
  else
    match categoryToLowerCase (extractCleanBeerStyle (style b)) with
    | Throw e => Throw e
    | Normal c =>
        if Js.includes c (Js.toLowerCase selectedStyle) then Normal true
        else Normal (Js.includes (Js.toLowerCase (style b)) (Js.toLowerCase selectedStyle))
    end.

Definition matchesAvailability (a : App) (selectedAvailability : string) (b : BeerEntry) : bool :=
  let isAvailable := getBeerAvailability a b in
  negb (Js.truthy selectedAvailability) ||
  (String.eqb selectedAvailability "available" && isAvailable) ||
  (String.eqb selectedAvailability "unavailable" && negb isAvailable).

Definition matchesABV (minABV maxABV : Js.number) (b : BeerEntry) : bool :=
  Js.ge (abv b) minABV && Js.le (abv b) maxABV.

(** The callback given to [this.beers.filter]: the five constants are
    computed in turn, then combined. *)
Definition filterCallback (a : App) (el : Elements) (b : BeerEntry) : Completion bool :=
  let searchTerm := Js.toLowerCase (searchInput el) in
  let mSearch := matchesSearch searchTerm b in
  let mBar := matchesBar (barFilter el) b in
  match matchesStyle (styleFilter el) b with
  | Throw e => Throw e
  | Normal mStyle =>
      let mAvailability := matchesAvailability a (availabilityFilter el) b in
      let mABV := matchesABV (abvMin el) (abvMax el) b in
      Normal (mSearch && mBar && mStyle && mAvailability && mABV)
  end.

(** [Array.prototype.filter] with a callback that can throw: the elements
    are visited in order and the first throw ends the call. *)
Fixpoint arrayFilter {A} (f : A -> Completion bool) (l : list A) : Completion (list A) :=
  match l with
  | [] => Normal []
  | x :: l' =>
      match f x with
      | Throw e => Throw e
      | Normal keep =>
          match arrayFilter f l' with
          | Throw e => Throw e
          | Normal kept => Normal (if keep then x :: kept else kept)
          end
      end
  end.

(** The filter as a function of the records, the criteria and the
    availability lookup (the map held by the state). *)
Definition filterRecords (a : App) (el : Elements) (records : list BeerEntry)
  : Completion (list BeerEntry) :=
  arrayFilter (filterCallback a el) records.

(** [filterBeers()]: the state after the call and its completion; a throw
    of the callback leaves [filteredBeers] unassigned.  Rendering is left
    out. *)
Definition filterBeers (a : App) (el : Elements) : App * Completion unit :=
  match filterRecords a el (beers a) with
  | Throw e => (a, Throw e)
  | Normal l => (setFilteredBeers a l, Normal tt)
  end.

(** ** Filter engine of [script.js]

    The revision without the availability overlay: the style clause reads
    the raw style only, and the callback cannot throw. *)

Module ScriptJs.

Definition matchesStyle (selectedStyle : string) (b : BeerEntry) : bool :=
  negb (Js.truthy selectedStyle) ||
  Js.includes (Js.toLowerCase (style b)) (Js.toLowerCase selectedStyle).

Definition filterCallback (el : Elements) (b : BeerEntry) : bool :=
  let searchTerm := Js.toLowerCase (searchInput el) in
  matchesSearch searchTerm b && matchesBar (barFilter el) b &&
  matchesStyle (styleFilter el) b && matchesABV (abvMin el) (abvMax el) b.

(** [filterBeers()]; rendering is left out. *)
Definition filterBeers (a : App) (el : Elements) : App :=
  setFilteredBeers a (List.filter (filterCallback el) (beers a)).

End ScriptJs.

(** ** Sort engine *)

(** [a[column]] for a column other than [abv] and [last_seen]: the string
    fields of an entry; any other name is [undefined] ([None]).  Members
    inherited from [Object.prototype] are not modelled. *)
Definition stringField (a : BeerEntry) (column : string) : option string :=
  if String.eqb column "brewery" then Some (brewery a)
  else if String.eqb column "beer" then Some (beer a)
  else if String.eqb column "style" then Some (style a)
  else if String.eqb column "location" then Some (location a)
  else if String.eqb column "bar" then Some (bar a)
  else None.

(** [aVal.toString().toLowerCase()] *)
Definition lowerKey (v : option string) : Completion string :=
  match v with
  | Some s => Normal (Js.toLowerCase s)
  | None => Throw (TypeError "Cannot read properties of undefined (reading 'toString')")
  end.

(** The value compared on the column [last_seen]: the time of the update
    of an available beer ([new Date(updated_at).getTime()]; the stored text
    is never empty), and 0 for a beer without information or unavailable. *)
Definition lastSeen (app : App) (a : BeerEntry) : Js.number :=
  match getBeerAvailabilityInfo app a with
  | Some aInfo => if is_available aInfo then Js.ofZ (updated_at aInfo) else Js.zero
  | None => Js.zero
  end.

(** [result = 0; if (aVal < bVal) result = -1; if (aVal > bVal) result = 1] *)
Definition threeWay {K} (ltK : K -> K -> bool) (aVal bVal : K) : Z :=
  let result := 0 in
  let result := if ltK aVal bVal then -1 else result in
  let result := if ltK bVal aVal then 1 else result in
  result.

Definition directed (d : Direction) (result : Z) : Z :=
  match d with desc => - result | asc => result end.

(** The comparator given to [this.filteredBeers.sort]. *)
Definition sortComparator (app : App) (column : string) (d : Direction)
    (a b : BeerEntry) : Completion Z :=
  if String.eqb column "abv" then
    let aVal := Js.orZero (Js.parseFloatNum (abv a)) in
    let bVal := Js.orZero (Js.parseFloatNum (abv b)) in
    Normal (directed d (threeWay Js.lt aVal bVal))
  else if String.eqb column "last_seen" then
    Normal (directed d (threeWay Js.lt (lastSeen app a) (lastSeen app b)))
  else
    match lowerKey (stringField a column) with
    | Throw e => Throw e
    | Normal aVal =>
        match lowerKey (stringField b column) with
        | Throw e => Throw e
        | Normal bVal => Normal (directed d (threeWay Js.strLt aVal bVal))
        end
    end.

(** The direction and column [sortTable(column)] sets before it sorts. *)
Definition nextSort (s : SortState) (col : string) : SortState :=
  match column s with
  | Some c =>
      if String.eqb c col
      then {| column := Some c;
              direction := match direction s with asc => desc | desc => asc end |}
      else {| column := Some col; direction := asc |}
  | None => {| column := Some col; direction := asc |}
  end.

Section SortTable.

(** [Array.prototype.sort] of the host, given the comparator. *)
Variable hostSort :
  (BeerEntry -> BeerEntry -> Completion Z) -> list BeerEntry -> Completion (list BeerEntry).

(** [sortTable(column)]: the sort state is set first; the array is put in
    the order the host's sort returns, and keeps its order when the
    comparator throws.  The sort indicators and rendering are left out. *)
Definition sortTable (a : App) (col : string) : App * Completion unit :=
  let a1 := setCurrentSort a (nextSort (currentSort a) col) in
  match hostSort (sortComparator a1 col (direction (currentSort a1))) (filteredBeers a1) with
  | Throw e => (a1, Throw e)
  | Normal sorted => (setFilteredBeers a1 sorted, Normal tt)
  end.

End SortTable.

(** A host sort: stable insertion sort, calling the comparator
    on pairs of elements of the array. *)
Fixpoint insertSorted (cmp : BeerEntry -> BeerEntry -> Completion Z) (x : BeerEntry)
    (l : list BeerEntry) : Completion (list BeerEntry) :=
  match l with
  | [] => Normal [x]
  | y :: l' =>
      match cmp x y with
      | Throw e => Throw e
      | Normal v =>
          if (v <=? 0)%Z then Normal (x :: l)
          else match insertSorted cmp x l' with
               | Throw e => Throw e
               | Normal r => Normal (y :: r)
               end
      end
  end.

Fixpoint insertionSort (cmp : BeerEntry -> BeerEntry -> Completion Z)
    (l : list BeerEntry) : Completion (list BeerEntry) :=
  match l with
  | [] => Normal []
  | x :: l' =>
      match insertionSort cmp l' with
      | Throw e => Throw e
      | Normal s => insertSorted cmp x s
      end
  end.

(** ** Filter choices *)

(** [new Set(xs)], read back in insertion order: a value is added unless
    it is there already. *)
Fixpoint setAdd {A} (eqb : A -> A -> bool) (seen xs : list A) : list A :=
  match xs with
  | [] => seen
  | x :: xs' =>
      if existsb (eqb x) seen then setAdd eqb seen xs'
      else setAdd eqb (seen ++ [x])%list xs'
  end.

(** [[...new Set(xs)]] *)
Definition spreadSet {A} (eqb : A -> A -> bool) (xs : list A) : list A :=
  setAdd eqb [] xs.

(** Equality of two results of the classifier, as the set compares them. *)
Definition sameCategory (x y : option string) : bool :=
  match x, y with
  | Some s, Some t => String.eqb s t
  | None, None => true
  | _, _ => false
  end.

(** [.filter(style => style !== null)] *)
Fixpoint nonNull (l : list (option string)) : list string :=
  match l with
  | [] => []
  | Some s :: l' => s :: nonNull l'
  | None :: l' => nonNull l'
  end.

Section PopulateFilters.

(** [Array.prototype.sort] of the host without a comparator, on strings. *)
Variable defaultSort : list string -> list string.

(** The bars [populateFilters] offers in the bar filter, after "All Bars":
    the distinct bars of the beers, the empty one left out, sorted. *)
Definition barOptions (a : App) : list string :=
  defaultSort (List.filter Js.truthy (spreadSet String.eqb (List.map bar (beers a)))).

(** The styles [populateFilters] offers in the style filter, after
    "All Styles": the distinct categories of the beers, [null] left out,
    sorted.  (The range the function gives the two ABV sliders is not
    embedded.) *)
Definition styleOptions (a : App) : list string :=
  defaultSort
    (nonNull (spreadSet sameCategory
                (List.map (fun b => extractCleanBeerStyle (style b)) (beers a)))).

End PopulateFilters.

(** A host sort for strings: stable insertion sort by the order of the code
    units. *)
Fixpoint insertString (x : string) (l : list string) : list string :=
  match l with
  | [] => [x]
  | y :: l' => if Js.strLt y x then y :: insertString x l' else x :: l
  end.

Fixpoint sortStrings (l : list string) : list string :=
  match l with
  | [] => []
  | x :: l' => insertString x (sortStrings l')
  end.

(** ** Rendering *)

(** The decimal text of an integer, as a template prints a whole number. *)
Definition decimal (z : Z) : string := NilZero.string_of_int (Z.to_int z).

Section FormatTimeAgo.

(** [then.toLocaleDateString()], which depends on the locale of the host. *)
Variable toLocaleDateString : Z -> string.

(** [formatTimeAgo(timestamp)] at the clock reading [nowMs]; a missing
    time stamp is [None].  Times are in milliseconds; the quotients are
    whole numbers, which the floating-point division and [Math.floor] of
    the script compute exactly for differences below 2^53. *)
Definition formatTimeAgo (nowMs : Z) (timestamp : option Z) : string :=
  match timestamp with
  | None => EmptyString
  | Some thenMs =>
      let diffMs := nowMs - thenMs in
      let diffMins := diffMs / 60000 in
      let diffHours := diffMins / 60 in
      let diffDays := diffHours / 24 in
      if (diffMins <? 1)%Z then "just now"
      else if (diffMins <? 60)%Z then decimal diffMins +:+ "m ago"
      else if (diffHours <? 24)%Z then decimal diffHours +:+ "h ago"
      else if (diffDays <? 7)%Z then decimal diffDays +:+ "d ago"
      else toLocaleDateString thenMs
  end.

(** The text of the cell "last seen" of a row of [renderTable]. *)
Definition lastSeenText (a : App) (nowMs : Z) (b : BeerEntry) : string :=
  match getBeerAvailabilityInfo a b with
  | Some availabilityInfo =>
      if is_available availabilityInfo
      then formatTimeAgo nowMs (Some (updated_at availabilityInfo))
      else "Never"
  | None => "Never"
  end.

End FormatTimeAgo.

(** [availableCount] of [renderTable]: the shown beers that are available. *)
Definition availableCount (a : App) : nat :=
  length (List.filter (getBeerAvailability a) (filteredBeers a)).

Section AbvCell.

(** The text the host makes of a number in a template. *)
Variable numberToString : Js.number -> string.

(** The text of the cell "ABV" of a row of [renderTable]. *)
Definition abvCell (b : BeerEntry) : string :=
  if Js.gt (abv b) Js.zero then numberToString (abv b) +:+ "%" else "N/A".

End AbvCell.

(** ** Loading the page *)

(** What [fetch] and the reading of the response end in: a rejected
    promise (no network, a body that is not JSON), a response that is not
    [ok], or the rows of the document parsed from [data.contents]. *)
Inductive FetchOutcome :=
  | fetchRejected
  | responseNotOk
  | responseOk (rows : list Row).

(** The three parts of the page the loader shows and hides. *)
Record View := {
  loadingHidden : bool;
  errorShown : bool;
  tableShown : bool
}.

Definition showError (v : View) : View :=
  {| loadingHidden := true; errorShown := true; tableShown := tableShown v |}.

Definition hideLoading (v : View) : View :=
  {| loadingHidden := true; errorShown := errorShown v; tableShown := true |}.

(** [loadFreshBeerData]: every exception of the body is caught and ends in
    [showError]; [hideLoading] is the last step of a [parseHtmlData] that
    returns. *)
Definition loadFreshBeerData (a : App) (v : View) (r : FetchOutcome) : App * View :=
  match r with
  | fetchRejected => (a, showError v)
  | responseNotOk => (a, showError v)
  | responseOk rows =>
      match parseHtmlData a rows with
      | (a', Normal _) => (a', hideLoading v)
      | (a', Throw _) => (a', showError v)
      end
  end.

(** [init], after the listeners are set: the records are loaded, then the
    availability, whether or not the records could be loaded. *)
Definition init (w : World) (v : View) (r : FetchOutcome) : World * View :=
  let '(a', v') := loadFreshBeerData (app w) v r in
  ({| app := loadBeerAvailability (store w) a'; userIdItem := userIdItem w;
      store := store w |}, v').

(** * Specification-level definitions

    The predicates and reference functions in which the properties are
    stated, and the sample data of the examples. *)

Fixpoint allChars (p : ascii -> bool) (s : string) : bool :=
  match s with
  | EmptyString => true
  | String c s' => p c && allChars p s'
  end.

(** The text does not start with a character satisfying [p]. *)
Definition notStarting (p : ascii -> bool) (s : string) : Prop :=
  match s with
  | EmptyString => True
  | String c _ => p c = false
  end.

Fixpoint lastChar (s : string) : option ascii :=
  match s with
  | EmptyString => None
  | String c EmptyString => Some c
  | String _ s' => lastChar s'
  end.

(** The text does not end with a character satisfying [p]. *)
Definition notEnding (p : ascii -> bool) (s : string) : Prop :=
  match lastChar s with
  | None => True
  | Some c => p c = false
  end.

(** The brewery has no bar character. *)
Definition barFree (s : string) : Prop := Js.includes s "|" = false.

(** A keyword occurs in the lower-cased text. *)
Definition occursIn (lowerStyle keyword : string) : Prop :=
  exists pre post, lowerStyle = pre +:+ keyword +:+ post.

(** A rule matches when one of its keywords occurs. *)
Definition ruleMatches (lowerStyle : string) (t : CoreType) : Prop :=
  exists keyword, In keyword (keywords t) /\ occursIn lowerStyle keyword.

(** The rule of the specification for a row: at least six cells, brewery
    and name not empty after trimming, and brewery not the header label. *)
Definition qualifies (cells : Row) : bool :=
  (6 <=? length cells)%nat &&
  negb (String.eqb (Js.trim (textContent cells 0)) EmptyString) &&
  negb (String.eqb (Js.trim (textContent cells 1)) EmptyString) &&
  negb (String.eqb (Js.trim (textContent cells 0)) "Brewery").

(** The record of the specification for a row: the trimmed cells 0 to 5,
    the fourth read as a number. *)
Definition entryOf (cells : Row) : BeerEntry :=
  {| brewery := Js.trim (textContent cells 0);
     beer := Js.trim (textContent cells 1);
     style := Js.trim (textContent cells 2);
     abv := parseABV (Js.trim (textContent cells 3));
     location := Js.trim (textContent cells 4);
     bar := Js.trim (textContent cells 5) |}.

(** No character of the text is a digit. *)
Definition noDigits (s : string) : Prop :=
  allChars (fun c => negb (Js.isDigit c)) s = true.

(** The text consists of digits and has at least one. *)
Definition digits (s : string) : Prop :=
  allChars Js.isDigit s = true /\ s <> EmptyString.

Definition isDot (c : ascii) : bool := Ascii.eqb c ".".

(** An entry with the given style and ABV. *)
Definition sampleBeer (name style : string) (abv : Js.number) : BeerEntry :=
  {| brewery := "Brewer A"; beer := name; style := style; abv := abv;
     location := "Tent 1"; bar := "Bar X" |}.

Definition withBeers (l : list BeerEntry) : App := setBeers (initialApp true) l.

(** Controls with the given style and ABV range, the others at their
    neutral values. *)
Definition controls (selectedStyle : string) (lo hi : Js.number) : Elements :=
  {| searchInput := EmptyString; barFilter := EmptyString; styleFilter := selectedStyle;
     availabilityFilter := EmptyString; abvMin := lo; abvMax := hi |}.

(** The style clause in the words of the specification: no style selected,
    or the category contains the selected value, or the raw style does,
    both without regard to case; an unclassified record has no category. *)
Definition styleClause (selectedStyle : string) (b : BeerEntry) : bool :=
  String.eqb selectedStyle EmptyString ||
  match extractCleanBeerStyle (style b) with
  | Some c => Js.includes (Js.toLowerCase c) (Js.toLowerCase selectedStyle)
  | None => false
  end ||
  Js.includes (Js.toLowerCase (style b)) (Js.toLowerCase selectedStyle).

(** The conjunction of the five clauses. *)
Definition passes (a : App) (el : Elements) (b : BeerEntry) : bool :=
  matchesSearch (Js.toLowerCase (searchInput el)) b &&
  matchesBar (barFilter el) b &&
  styleClause (styleFilter el) b &&
  matchesAvailability a (availabilityFilter el) b &&
  matchesABV (abvMin el) (abvMax el) b.

(** The callback is defined on an entry: a style is selected only if the
    entry is classified. *)
Definition evaluable (el : Elements) (b : BeerEntry) : Prop :=
  styleFilter el = EmptyString \/ extractCleanBeerStyle (style b) <> None.

(** The entries of the example of the specification: ABVs 3, 4, 5, 6, 7. *)
Definition abvBeer (n : Z) : BeerEntry := sampleBeer "Beer" "Bitter" (Js.ofZ n).

Definition keyOf (r : Store.Item) : string * string :=
  (Store.brewery r, Store.beer_name r).

(** What the update does to one row. *)
Definition updated (b n : string) (status : bool) (by_ : string) (at_ : Z)
    (r : Store.Item) : Store.Item :=
  if Store.hasKey b n r
  then {| Store.brewery := Store.brewery r; Store.beer_name := Store.beer_name r;
          Store.is_available := status; Store.updated_by := by_;
          Store.updated_at := at_ |}
  else r.

(** The store after a toggle, when the client exists and the store can be
    reached. *)
Definition toggledStore (s : Store.t) (b n : string) (userId : string) (t : Z) : Store.t :=
  match List.filter (Store.hasKey b n) (Store.rows s) with
  | [r] =>
      {| Store.reachable := true;
         Store.rows := List.map (updated b n (negb (Store.is_available r)) userId t)
                         (Store.rows s) |}
  | [] =>
      {| Store.reachable := true;
         Store.rows := (Store.rows s ++
                        [{| Store.brewery := b; Store.beer_name := n;
                            Store.is_available := true; Store.updated_by := userId;
                            Store.updated_at := t |}])%list |}
  | _ => s
  end.

Definition infoOf (r : Store.Item) : AvailabilityInfo :=
  {| is_available := Store.is_available r;
     updated_by := Store.updated_by r;
     updated_at := Store.updated_at r |}.

Definition cacheKey (r : Store.Item) : string :=
  availabilityKey (Store.brewery r) (Store.beer_name r).

(** No row of the table other than the row of the beer has the beer's key
    in the map. *)
Definition collisionFree (s : Store.t) (b n : string) : Prop :=
  forall r, In r (Store.rows s) -> cacheKey r = availabilityKey b n -> keyOf r = (b, n).

(** Strict order of two stored times. *)
Definition stampLt (a b : option Z) : Prop :=
  match a, b with
  | Some x, Some y => x < y
  | _, _ => False
  end.

(** A world with a client, an empty reachable store and nothing cached. *)
Definition emptyWorld : World :=
  {| app := initialApp true; userIdItem := None;
     store := {| Store.reachable := true; Store.rows := [] |} |}.

Definition golden : BeerEntry := sampleBeer "Golden" "Golden Ale, 4.2%" (Js.ofDecimal 42 1).

Definition at1000 : Env := {| now := 1000; random := "k3x9qa" |}.
Definition at2000 : Env := {| now := 2000; random := "k3x9qa" |}.

(** A beer of the given brewery and name. *)
Definition named (brewery beer : string) : BeerEntry :=
  {| brewery := brewery; beer := beer; style := "Bitter"; abv := Js.ofZ 4;
     location := "Tent 1"; bar := "Bar X" |}.

(** The document of the end-to-end scenario of the specification, with
    white space around some cells: a header row, a row of five cells, and
    the row of the beer [golden]. *)
Definition sampleRows : list Row := [
  ["Brewery"; "Beer"; "Style"; "ABV"; "Location"; "Bar"];
  ["Brewer A"; "Golden"; "Golden Ale, 4.2%"; "4.2%"; "Tent 1"];
  [" Brewer A"; "Golden  "; " Golden Ale, 4.2% "; "4.2%"; "Tent 1"; "Bar X"; "extra"]
].

(** The value compared for a record: a number for the columns [abv] and
    [last_seen], a lower-cased string for the others. *)
Inductive SortKey :=
  | KNum (n : Js.number)
  | KStr (s : string).

Definition keyLt (x y : SortKey) : bool :=
  match x, y with
  | KNum a, KNum b => Js.lt a b
  | KStr a, KStr b => Js.strLt a b
  | _, _ => false
  end.

(** Columns with a sort key: the numeric ones and the string fields. *)
Definition sortable (col : string) : bool :=
  String.eqb col "abv" || String.eqb col "last_seen" || String.eqb col "brewery" ||
  String.eqb col "beer" || String.eqb col "style" || String.eqb col "location" ||
  String.eqb col "bar".

(** The sort key of a record on a column. *)
Definition sortKeyOf (a : App) (col : string) (x : BeerEntry) : SortKey :=
  if String.eqb col "abv" then KNum (Js.orZero (Js.parseFloatNum (abv x)))
  else if String.eqb col "last_seen" then KNum (lastSeen a x)
  else match stringField x col with
       | Some s => KStr (Js.toLowerCase s)
       | None => KStr EmptyString
       end.

Definition Comparator := BeerEntry -> BeerEntry -> Completion Z.

Definition cmpLt (cmp : Comparator) (x y : BeerEntry) : Prop :=
  exists v, cmp x y = Normal v /\ v < 0.
Definition cmpEq (cmp : Comparator) (x y : BeerEntry) : Prop :=
  cmp x y = Normal 0.
Definition cmpGt (cmp : Comparator) (x y : BeerEntry) : Prop :=
  exists v, cmp x y = Normal v /\ 0 < v.

(** A consistent comparator for the values of an array, as ECMAScript
    defines it: it returns a number on every pair; "compares equal" is
    reflexive, symmetric and transitive; "compares less" and "compares
    greater" are transitive. *)
Record consistentOn (cmp : Comparator) (l : list BeerEntry) : Prop := {
  consistent_total : forall x y, In x l -> In y l -> exists v, cmp x y = Normal v;
  consistent_refl : forall x, In x l -> cmpEq cmp x x;
  consistent_sym : forall x y, In x l -> In y l -> cmpEq cmp x y -> cmpEq cmp y x;
  consistent_eq_trans : forall x y z, In x l -> In y l -> In z l ->
      cmpEq cmp x y -> cmpEq cmp y z -> cmpEq cmp x z;
  consistent_lt_trans : forall x y z, In x l -> In y l -> In z l ->
      cmpLt cmp x y -> cmpLt cmp y z -> cmpLt cmp x z;
  consistent_gt_trans : forall x y z, In x l -> In y l -> In z l ->
      cmpGt cmp x y -> cmpGt cmp y z -> cmpGt cmp x z
}.

(** What ECMAScript requires of [Array.prototype.sort] for a consistent
    comparator: the result is a permutation of the array, and no element
    is placed after one it compares less than. *)
Definition sortContract
    (hostSort : Comparator -> list BeerEntry -> Completion (list BeerEntry)) : Prop :=
  forall cmp l,
    consistentOn cmp l ->
    exists l',
      hostSort cmp l = Normal l' /\
      Permutation l l' /\
      StronglySorted (fun x y => ~ cmpLt cmp y x) l'.

(** [x] goes before [y] in the direction [d]. *)
Definition before (k : BeerEntry -> SortKey) (d : Direction) (x y : BeerEntry) : Prop :=
  match d with
  | asc => keyLt (k x) (k y) = true
  | desc => keyLt (k y) (k x) = true
  end.

Definition opposite (d : Direction) : Direction :=
  match d with asc => desc | desc => asc end.

(** No ties: of two records at different positions, one has the smaller
    key. *)
Definition distinctKeys (k : BeerEntry -> SortKey) (l : list BeerEntry) : Prop :=
  ForallOrdPairs (fun x y => keyLt (k x) (k y) = true \/ keyLt (k y) (k x) = true) l.

(** The same, by membership. *)
Definition separated (k : BeerEntry -> SortKey) (l : list BeerEntry) : Prop :=
  NoDup l /\
  forall x y, In x l -> In y l -> x <> y ->
              keyLt (k x) (k y) = true \/ keyLt (k y) (k x) = true.

(** The order the contract asks for: [y] does not compare less than [x]. *)
Definition notAfter (cmp : Comparator) (x y : BeerEntry) : Prop := ~ cmpLt cmp y x.

(** The records have no ties on the column: of two records at different
    positions, one has the smaller sort key. *)
Definition noTies (a : App) (col : string) (l : list BeerEntry) : Prop :=
  distinctKeys (sortKeyOf a col) l.

(** Three records with the ABVs 5, 3 and 4, not yet sorted. *)
Definition threeBeers : App :=
  setBeers (initialApp true) (List.map abvBeer [5; 3; 4]).

(** The number is +0, a positive finite number or +Infinity: neither NaN
    nor negative. *)
Definition nonNegative (x : Js.number) : bool :=
  match x with
  | S754_zero false | S754_infinity false | S754_finite false _ _ => true
  | _ => false
  end.

Definition notNaN (x : Js.number) : bool :=
  match x with
  | S754_nan => false
  | _ => true
  end.

(** The text neither starts nor ends with white space. *)
Definition trimmed (s : string) : Prop :=
  notStarting Js.isWhiteSpace s /\ notEnding Js.isWhiteSpace s.

(** What the extractor guarantees of a record. *)
Definition wellFormed (b : BeerEntry) : Prop :=
  brewery b <> EmptyString /\ beer b <> EmptyString /\ brewery b <> "Brewery" /\
  trimmed (brewery b) /\ trimmed (beer b) /\ trimmed (style b) /\
  trimmed (location b) /\ trimmed (bar b) /\
  nonNegative (abv b) = true.

(** What ECMAScript requires of [Array.prototype.sort] without a
    comparator on an array of strings: the result is a permutation of the
    array in which no string is placed after one it is less than. *)
Definition defaultSortContract (defaultSort : list string -> list string) : Prop :=
  forall l,
    Permutation l (defaultSort l) /\
    StronglySorted (fun x y => Js.strLt y x = false) (defaultSort l).

(** A beer without a bar and of an unclassified style. *)
Definition oddBeer : BeerEntry :=
  {| brewery := "Brewer C"; beer := "Odd"; style := "Unknown Fruit Thing"; abv := Js.ofZ 4;
     location := "Essex"; bar := EmptyString |}.

(** Beers of three bars, one of them without a bar, and of three styles,
    one of them unclassified. *)
Definition barBeers : App :=
  withBeers [
    {| brewery := "Brewer A"; beer := "Golden"; style := "Golden Ale"; abv := Js.ofZ 4;
       location := "Essex"; bar := "Shed" |};
    {| brewery := "Brewer B"; beer := "Hop"; style := "India Pale Ale"; abv := Js.ofZ 5;
       location := "Kent"; bar := "Goods" |};
    oddBeer;
    {| brewery := "Brewer D"; beer := "Bright"; style := "Golden"; abv := Js.ofZ 4;
       location := "Kent"; bar := "Goods" |}
  ].


(** What a shown record owes to the bar and availability controls. *)
Definition meetsChoices (a : App) (el : Elements) (b : BeerEntry) : Prop :=
  (barFilter el <> EmptyString -> bar b = barFilter el) /\
  (availabilityFilter el = "available" -> getBeerAvailability a b = true) /\
  (availabilityFilter el = "unavailable" -> getBeerAvailability a b = false).

(** Controls with the given availability choice and an ABV range from 0
    to 20, the others at their neutral values. *)
Definition availabilityControls (selectedAvailability : string) : Elements :=
  {| searchInput := EmptyString; barFilter := EmptyString; styleFilter := EmptyString;
     availabilityFilter := selectedAvailability; abvMin := Js.ofZ 0; abvMax := Js.ofZ 20 |}.

(** Two beers, the first marked available in the store and loaded. *)
Definition twoBeers : App :=
  loadBeerAvailability
    (store (toggleBeerAvailability emptyWorld golden at1000))
    (withBeers [golden; named "Brewer B" "Hop"]).

(** [x] may stand before [y] in the direction [d]: [y] does not have the
    smaller key (ascending) or the larger key (descending). *)
Definition inOrder (k : BeerEntry -> SortKey) (d : Direction) (x y : BeerEntry) : Prop :=
  match d with
  | asc => keyLt (k y) (k x) = false
  | desc => keyLt (k x) (k y) = false
  end.

(** The keys of a column are all strings, or all numbers other than NaN. *)
Definition comparableKeys (k : BeerEntry -> SortKey) : Prop :=
  (forall x, exists s, k x = KStr s) \/
  (forall x, exists n, k x = KNum n /\ notNaN n = true).

(** Records with ties: ABVs 5, 0, 5, 3, the 0 an unparsed ABV. *)
Definition tiedBeers : App :=
  setBeers (initialApp true)
    [abvBeer 5; sampleBeer "Beer" "Bitter" (parseABV "N/A"); abvBeer 5; abvBeer 3].

(** A world whose store cannot be reached. *)
Definition offlineWorld : World :=
  {| app := initialApp true; userIdItem := Some "User_k3x9qa";
     store := {| Store.reachable := false; Store.rows := [] |} |}.

(** The page before anything is loaded. *)
Definition loadingView : View :=
  {| loadingHidden := false; errorShown := false; tableShown := false |}.

(** The fetch failed, or the document has no row of beer data. *)
Definition noBeerData (r : FetchOutcome) : Prop :=
  match r with
  | responseOk rows => List.filter qualifies rows = []
  | _ => True
  end.

(** A beer that is classified as IPA by a keyword, not by its name. *)
Definition indiaPaleAle : BeerEntry :=
  sampleBeer "Jaipur" "India Pale Ale" (Js.ofZ 6).

(** * Properties *)

(** ** Strings *)

Section StringFacts.

Lemma append_nil_l (s : string) : EmptyString +:+ s = s.
Proof. reflexivity. Qed.

Lemma append_cons (c : ascii) (s t : string) :
  String c s +:+ t = String c (s +:+ t).
Proof. reflexivity. Qed.

Lemma append_nil_r (s : string) : s +:+ EmptyString = s.
Proof.
  induction s as [|c s IH]; [reflexivity | now rewrite append_cons, IH].
Qed.

Lemma append_assoc (a b c : string) : (a +:+ b) +:+ c = a +:+ (b +:+ c).
Proof.
  induction a as [|x a IH]; [reflexivity | now rewrite !append_cons, IH].
Qed.

Lemma append_length (a b : string) :
  String.length (a +:+ b) = (String.length a + String.length b)%nat.
Proof.
  induction a as [|x a IH]; [reflexivity | rewrite append_cons; simpl; now rewrite IH].
Qed.

Lemma startsWith_spec (s k : string) :
  Js.startsWith s k = true <-> exists post, s = k +:+ post.
Proof.
  revert s. induction k as [|a k IH]; intros s.
  - split; [intros _; now exists s | intros _; destruct s; reflexivity].
  - destruct s as [|b s]; cbn [Js.startsWith].
    + split; [discriminate | intros [post H]; discriminate].
    + rewrite andb_true_iff, Ascii.eqb_eq, IH. split.
      * intros [-> [post ->]]. now exists post.
      * intros [post H]. rewrite append_cons in H. injection H as -> ->.
        split; [reflexivity | now exists post].
Qed.

Lemma includes_spec (s k : string) :
  Js.includes s k = true <-> exists pre post, s = pre +:+ k +:+ post.
Proof.
  induction s as [|c s IH].
  - cbn [Js.includes]. rewrite orb_false_r, startsWith_spec. split.
    + intros [post H]. now exists EmptyString, post.
    + intros [pre [post H]]. destruct pre; [now exists post | discriminate].
  - cbn [Js.includes]. rewrite orb_true_iff, startsWith_spec, IH. split.
    + intros [[post H] | [pre [post H]]].
      * now exists EmptyString, post.
      * exists (String c pre), post. now rewrite append_cons, H.
    + intros [pre [post H]]. destruct pre as [|x pre].
      * left. now exists post.
      * right. rewrite append_cons in H. injection H as _ H. now exists pre, post.
Qed.

Lemma includes_empty (s : string) : Js.includes s EmptyString = true.
Proof. destruct s; reflexivity. Qed.

Lemma truthy_false (s : string) : Js.truthy s = false <-> s = EmptyString.
Proof. destruct s; simpl; split; congruence. Qed.

(** *** What [trim] removes *)

Lemma trimStart_spec (s : string) :
  exists l, s = l +:+ Js.trimStart s /\
            allChars Js.isWhiteSpace l = true /\
            notStarting Js.isWhiteSpace (Js.trimStart s).
Proof.
  induction s as [|c s IH]; [now exists EmptyString|].
  cbn [Js.trimStart]. destruct (Js.isWhiteSpace c) eqn:E.
  - destruct IH as [l [Hs [Hl Hn]]]. exists (String c l).
    rewrite append_cons, <- Hs. cbn [allChars]. now rewrite E, Hl.
  - exists EmptyString. repeat split. exact E.
Qed.

Lemma trimEnd_spec (s : string) :
  exists r, s = Js.trimEnd s +:+ r /\
            allChars Js.isWhiteSpace r = true /\
            notEnding Js.isWhiteSpace (Js.trimEnd s) /\
            (notStarting Js.isWhiteSpace s -> notStarting Js.isWhiteSpace (Js.trimEnd s)).
Proof.
  induction s as [|c s IH]; [now exists EmptyString|].
  destruct IH as [r [Hs [Hr [Hn _]]]]. cbn [Js.trimEnd].
  destruct (Js.trimEnd s) as [|d t] eqn:E.
  - rewrite append_nil_l in Hs. subst r.
    destruct (Js.isWhiteSpace c) eqn:Ec.
    + exists (String c s). split; [reflexivity|]. split; [|split].
      * cbn [allChars]. now rewrite Ec, Hr.
      * exact I.
      * cbn [notStarting]. congruence.
    + exists s. split; [reflexivity|]. split; [exact Hr|]. split; [exact Ec|].
      intros _. exact Ec.
  - exists r. rewrite append_cons, <- Hs. split; [reflexivity|]. split; [exact Hr|].
    split; [exact Hn|]. intros H. exact H.
Qed.

(** [trim] drops a run of white space at each end and nothing else, and
    the result neither starts nor ends with white space. *)
Lemma trim_spec (s : string) :
  exists l r, s = l +:+ Js.trim s +:+ r /\
              allChars Js.isWhiteSpace l = true /\
              allChars Js.isWhiteSpace r = true /\
              notStarting Js.isWhiteSpace (Js.trim s) /\
              notEnding Js.isWhiteSpace (Js.trim s).
Proof.
  destruct (trimStart_spec s) as [l [Hs [Hl Hn]]].
  destruct (trimEnd_spec (Js.trimStart s)) as [r [Hs' [Hr [He Hst]]]].
  exists l, r. unfold Js.trim. split; [rewrite <- Hs'; exact Hs|].
  split; [exact Hl|]. split; [exact Hr|]. split; [exact (Hst Hn) | exact He].
Qed.

End StringFacts.

(** ** C10: the composite availability key *)

Section AvailabilityKey.

Lemma barFree_cons (c : ascii) (s : string) :
  barFree (String c s) <-> c <> "|"%char /\ barFree s.
Proof.
  unfold barFree. cbn [Js.includes Js.startsWith].
  replace (Js.startsWith s EmptyString) with true by (destruct s; reflexivity).
  rewrite andb_true_r, orb_false_iff, Ascii.eqb_neq.
  split; intros [H1 H2]; split; auto.
Qed.

Lemma availabilityKey_inj (b1 n1 b2 n2 : string) :
  barFree b1 -> barFree b2 ->
  availabilityKey b1 n1 = availabilityKey b2 n2 -> b1 = b2 /\ n1 = n2.
Proof.
  unfold availabilityKey. revert b2.
  induction b1 as [|c b1 IH]; intros [|d b2] H1 H2 E;
    rewrite ?append_cons, ?append_nil_l in E.
  - injection E as ->. auto.
  - injection E as <- _. apply barFree_cons in H2 as [H2 _]. congruence.
  - injection E as -> _. apply barFree_cons in H1 as [H1 _]. congruence.
  - injection E as -> E. apply barFree_cons in H1 as [_ H1].
    apply barFree_cons in H2 as [_ H2].
    destruct (IH b2 H1 H2 E) as [-> ->]. auto.
Qed.

Lemma availabilityKey_split (pre post n : string) :
  availabilityKey (pre +:+ "|" +:+ post) n = availabilityKey pre (post +:+ "|" +:+ n).
Proof. unfold availabilityKey. now rewrite !append_assoc. Qed.

(** C10.  The key of a beer in the availability map is brewery, a bar
    and beer name.  The pairs ("a|b", "c") and ("a", "b|c") are distinct
    and have the same key, so two beers with these names read the same
    entry of the map in every state: after the first is marked available
    in an empty store, the second shows as available although the store
    has no row for it.  Keys of beers whose breweries have no bar
    character are equal only for equal (brewery, name) pairs, and every
    brewery with a bar character collides with another pair. *)
Theorem availabilityKey_not_injective :
  (forall brewery beer, availabilityKey brewery beer = brewery +:+ "|" +:+ beer) /\
  availabilityKey "a|b" "c" = availabilityKey "a" "b|c" /\
  ("a|b", "c") <> ("a", "b|c") /\
  (forall (a : App) (x y : BeerEntry),
      availabilityKey (brewery x) (beer x) = availabilityKey (brewery y) (beer y) ->
      getBeerAvailabilityInfo a x = getBeerAvailabilityInfo a y /\
      getBeerAvailability a x = getBeerAvailability a y) /\
  (forall b1 n1 b2 n2,
      barFree b1 -> barFree b2 ->
      availabilityKey b1 n1 = availabilityKey b2 n2 -> (b1, n1) = (b2, n2)) /\
  (forall b n,
      ~ barFree b ->
      exists b' n', (b', n') <> (b, n) /\ availabilityKey b' n' = availabilityKey b n) /\
  getBeerAvailability
    (app (toggleBeerAvailability emptyWorld (named "a|b" "c") at1000))
    (named "a" "b|c") = true /\
  Store.status
    (store (toggleBeerAvailability emptyWorld (named "a|b" "c") at1000))
    "a" "b|c" = false.
Proof.
  split; [reflexivity|]. split; [reflexivity|]. split; [discriminate|].
  split; [|split; [|split; [|split; vm_compute; reflexivity]]].
  - intros a x y E. unfold getBeerAvailabilityInfo, getBeerAvailability.
    rewrite E. auto.
  - intros b1 n1 b2 n2 H1 H2 E.
    destruct (availabilityKey_inj _ _ _ _ H1 H2 E) as [-> ->]. reflexivity.
  - intros b n H. unfold barFree in H. apply not_false_is_true in H.
    apply includes_spec in H as [pre [post ->]].
    exists pre, (post +:+ "|" +:+ n). split.
    + intros E. injection E as E _. apply (f_equal String.length) in E.
      rewrite append_length in E. simpl in E. lia.
    + symmetry. apply availabilityKey_split.
Qed.

End AvailabilityKey.

(** ** C2: the style classifier *)

Section Classifier.

Lemma anyKeyword_spec (lowerStyle : string) (kws : list string) :
  anyKeyword lowerStyle kws = true <->
  exists keyword, In keyword kws /\ occursIn lowerStyle keyword.
Proof.
  induction kws as [|k kws IH]; simpl.
  - split; [discriminate | intros [k [[] _]]].
  - destruct (Js.includes lowerStyle k) eqn:E.
    + split; [intros _ | reflexivity].
      exists k. split; [now left | now apply includes_spec].
    + rewrite IH. split.
      * intros [k' [Hin Hocc]]. exists k'. auto.
      * intros [k' [[-> | Hin] Hocc]].
        -- apply includes_spec in Hocc. congruence.
        -- exists k'. auto.
Qed.

Lemma anyKeyword_false (lowerStyle : string) (t : CoreType) :
  anyKeyword lowerStyle (keywords t) = false <-> ~ ruleMatches lowerStyle t.
Proof.
  unfold ruleMatches. rewrite <- anyKeyword_spec.
  destruct (anyKeyword lowerStyle (keywords t)); split; congruence.
Qed.

Lemma findCoreType_Some (lowerStyle : string) (types : list CoreType) (c : string) :
  findCoreType lowerStyle types = Some c <->
  exists before t after,
    types = (before ++ t :: after)%list /\ category t = c /\
    ruleMatches lowerStyle t /\
    forall t', In t' before -> ~ ruleMatches lowerStyle t'.
Proof.
  induction types as [|t types IH]; simpl.
  - split; [discriminate|]. intros (before & t & after & E & _).
    destruct before; discriminate.
  - destruct (anyKeyword lowerStyle (keywords t)) eqn:E.
    + split.
      * intros [= <-]. exists nil, t, types. repeat split.
        -- now apply anyKeyword_spec.
        -- intros t' [].
      * intros (before & t0 & after & Eq & Hc & Hm & Hb).
        destruct before as [|b before]; simpl in Eq; injection Eq as -> ->.
        -- now rewrite Hc.
        -- exfalso. apply (Hb b); [now left | now apply anyKeyword_spec].
    + rewrite IH. apply anyKeyword_false in E. split.
      * intros (before & t0 & after & -> & Hc & Hm & Hb).
        exists (t :: before), t0, after. repeat split; auto.
        intros t' [<- | Hin]; auto.
      * intros (before & t0 & after & Eq & Hc & Hm & Hb).
        destruct before as [|b before]; simpl in Eq; injection Eq as -> ->.
        -- contradiction.
        -- exists before, t0, after. repeat split; auto.
           intros t' Hin. apply Hb. now right.
Qed.

Lemma findCoreType_None (lowerStyle : string) (types : list CoreType) :
  findCoreType lowerStyle types = None <->
  forall t, In t types -> ~ ruleMatches lowerStyle t.
Proof.
  induction types as [|t types IH]; simpl.
  - split; [intros _ t [] | reflexivity].
  - destruct (anyKeyword lowerStyle (keywords t)) eqn:E.
    + split; [discriminate|]. intros H. exfalso.
      apply (H t); [now left | now apply anyKeyword_spec].
    + rewrite IH. apply anyKeyword_false in E. split.
      * intros H t' [<- | Hin]; auto.
      * intros H t' Hin. apply H. now right.
Qed.

(** C2.  The classifier lower-cases its input and returns the category
    of the first rule of the table, in order, one of whose keywords occurs
    in the lower-cased input, and null (unclassified) exactly when no
    rule has such a keyword.  "India Pale Ale, 5.2%" is classified IPA, not
    Ale; "Best Bitter" is classified Bitter; "Unknown Fruit Thing" is
    unclassified. *)
Theorem extractCleanBeerStyle_first_match :
  (forall styleText c,
      extractCleanBeerStyle styleText = Some c <->
      exists before t after,
        coreTypes = (before ++ t :: after)%list /\ category t = c /\
        ruleMatches (Js.toLowerCase styleText) t /\
        forall t', In t' before -> ~ ruleMatches (Js.toLowerCase styleText) t') /\
  (forall styleText,
      extractCleanBeerStyle styleText = None <->
      forall t, In t coreTypes -> ~ ruleMatches (Js.toLowerCase styleText) t) /\
  extractCleanBeerStyle "India Pale Ale, 5.2%" = Some "IPA" /\
  extractCleanBeerStyle "India Pale Ale, 5.2%" <> Some "Ale" /\
  ruleMatches (Js.toLowerCase "India Pale Ale, 5.2%")
    {| keywords := ["ale"]; category := "Ale" |} /\
  extractCleanBeerStyle "Best Bitter" = Some "Bitter" /\
  extractCleanBeerStyle "Unknown Fruit Thing" = None.
Proof.
  split; [intros; apply findCoreType_Some|].
  split; [intros; apply findCoreType_None|].
  split; [reflexivity|]. split; [discriminate|].
  split; [|split; reflexivity].
  exists "ale". split; [now left|]. exists "india p", " ale, 5.2%". reflexivity.
Qed.

End Classifier.

(** ** C1, C3: the record extractor *)

Section Extractor.

Lemma truthy_eqb (s : string) : Js.truthy s = negb (String.eqb s EmptyString).
Proof. destruct s; reflexivity. Qed.

Lemma qualifies_spec (cells : Row) :
  qualifies cells = true <->
  (6 <= length cells)%nat /\
  Js.trim (textContent cells 0) <> EmptyString /\
  Js.trim (textContent cells 1) <> EmptyString /\
  Js.trim (textContent cells 0) <> "Brewery".
Proof.
  unfold qualifies.
  rewrite !andb_true_iff, !negb_true_iff, !String.eqb_neq, Nat.leb_le. tauto.
Qed.

Lemma parseRow_spec (beerData : list BeerEntry) (cells : Row) :
  parseRow beerData cells =
  (beerData ++ (if qualifies cells then [entryOf cells] else []))%list.
Proof.
  unfold parseRow, qualifies, entryOf. rewrite !truthy_eqb.
  destruct (6 <=? length cells)%nat; simpl; [|now rewrite app_nil_r].
  destruct (negb (String.eqb (Js.trim (textContent cells 0)) EmptyString)); simpl;
    [|now rewrite app_nil_r].
  destruct (negb (String.eqb (Js.trim (textContent cells 1)) EmptyString)); simpl;
    [|now rewrite app_nil_r].
  destruct (negb (String.eqb (Js.trim (textContent cells 0)) "Brewery")); simpl;
    [reflexivity | now rewrite app_nil_r].
Qed.

Lemma parseRows_spec (rows : list Row) (beerData : list BeerEntry) :
  parseRows beerData rows =
  (beerData ++ List.map entryOf (List.filter qualifies rows))%list.
Proof.
  revert beerData. induction rows as [|cells rows IH]; intros beerData; simpl.
  - now rewrite app_nil_r.
  - rewrite IH, parseRow_spec. destruct (qualifies cells); simpl.
    + now rewrite <- app_assoc.
    + now rewrite app_nil_r.
Qed.

Lemma filter_nil_iff {A} (f : A -> bool) (l : list A) :
  List.filter f l = [] <-> forall x, In x l -> f x = false.
Proof.
  induction l as [|x l IH]; simpl.
  - split; [intros _ x [] | reflexivity].
  - destruct (f x) eqn:E.
    + split; [discriminate|]. intros H. specialize (H x (or_introl eq_refl)). congruence.
    + rewrite IH. split.
      * intros H y [<- | Hin]; auto.
      * intros H y Hin. apply H. now right.
Qed.

Lemma parseHtmlData_cases (a : App) (rows : list Row) :
  parseHtmlData a rows =
  match List.filter qualifies rows with
  | [] => (a, Throw (Error "No beer data found in the response"))
  | l => (setBeers a (List.map entryOf l), Normal tt)
  end.
Proof.
  unfold parseHtmlData. rewrite parseRows_spec. simpl.
  destruct (List.filter qualifies rows); reflexivity.
Qed.

(** C1.  For a document with at least one qualifying row, extraction
    completes normally and the records are those of the qualifying rows
    (six cells or more, trimmed brewery and name not empty, trimmed
    brewery not "Brewery"), one per row and in the order of the rows;
    brewery, name, style, ABV, location and bar of a record are the
    trimmed cells 0 to 5 of its row, the ABV read as a number. *)
Theorem parseHtmlData_qualifying_rows (a : App) (rows : list Row) :
  (exists cells, In cells rows /\ qualifies cells = true) ->
  parseHtmlData a rows =
    (setBeers a (List.map entryOf (List.filter qualifies rows)), Normal tt) /\
  (forall cells,
      qualifies cells = true <->
      (6 <= length cells)%nat /\
      Js.trim (textContent cells 0) <> EmptyString /\
      Js.trim (textContent cells 1) <> EmptyString /\
      Js.trim (textContent cells 0) <> "Brewery") /\
  (forall cells,
      entryOf cells =
      {| brewery := Js.trim (nth 0 cells EmptyString);
         beer := Js.trim (nth 1 cells EmptyString);
         style := Js.trim (nth 2 cells EmptyString);
         abv := parseABV (Js.trim (nth 3 cells EmptyString));
         location := Js.trim (nth 4 cells EmptyString);
         bar := Js.trim (nth 5 cells EmptyString) |}).
Proof.
  intros [cells [Hin Hq]]. split; [|split].
  - rewrite parseHtmlData_cases.
    destruct (List.filter qualifies rows) eqn:E; [|reflexivity].
    rewrite (proj1 (filter_nil_iff _ _) E cells Hin) in Hq. discriminate.
  - apply qualifies_spec.
  - reflexivity.
Qed.

Lemma parseHtmlData_qualifying_rows_witness :
  (exists cells, In cells sampleRows /\ qualifies cells = true) /\
  parseHtmlData (initialApp true) sampleRows =
    (setBeers (initialApp true) [golden], Normal tt).
Proof.
  assert (exists cells, In cells sampleRows /\ qualifies cells = true) as H.
  { eexists. split; [right; right; left; reflexivity | reflexivity]. }
  split; [exact H|].
  exact (proj1 (parseHtmlData_qualifying_rows (initialApp true) sampleRows H)).
Defined.

(** C3.  Extraction throws its error exactly when no row of the
    document qualifies, and then leaves the state as it was; it completes
    normally exactly when some row qualifies. *)
Theorem parseHtmlData_error_iff_no_rows (a : App) (rows : list Row) :
  ((forall cells, In cells rows -> qualifies cells = false) <->
   parseHtmlData a rows = (a, Throw (Error "No beer data found in the response"))) /\
  ((forall cells, In cells rows -> qualifies cells = false) <->
   exists e, snd (parseHtmlData a rows) = Throw e) /\
  ((exists cells, In cells rows /\ qualifies cells = true) <->
   snd (parseHtmlData a rows) = Normal tt).
Proof.
  rewrite parseHtmlData_cases, <- filter_nil_iff.
  destruct (List.filter qualifies rows) as [|c l] eqn:E; simpl.
  - split; [tauto|]. split.
    + split; [intros _; now eexists | reflexivity].
    + split; [|discriminate]. intros [cells [Hin Hq]].
      rewrite (proj1 (filter_nil_iff _ _) E cells Hin) in Hq. discriminate.
  - split; [split; [discriminate | intros [=]]|]. split.
    + split; [discriminate | intros [e [=]]].
    + split; [reflexivity|]. intros _. exists c.
      assert (In c (List.filter qualifies rows)) as H by (rewrite E; now left).
      apply filter_In in H. exact H.
Qed.

End Extractor.

(** ** C4: reading the ABV *)

Section ParseABV.

Lemma spanDigits_app (d r : string) :
  allChars Js.isDigit d = true -> notStarting Js.isDigit r ->
  Js.spanDigits (d +:+ r) = (d, r).
Proof.
  intros Hd Hr. induction d as [|c d IH].
  - rewrite append_nil_l. destruct r as [|x r]; [reflexivity|].
    simpl in *. now rewrite Hr.
  - rewrite append_cons. simpl in *. apply andb_true_iff in Hd as [Hc Hd].
    now rewrite Hc, (IH Hd).
Qed.

Lemma spanDigits_all (d : string) :
  allChars Js.isDigit d = true -> Js.spanDigits d = (d, EmptyString).
Proof.
  intros Hd. rewrite <- (append_nil_r d) at 1. now apply spanDigits_app.
Qed.

Lemma matchNumber_skip (pre s : string) :
  noDigits pre -> matchNumber (pre +:+ s) = matchNumber s.
Proof.
  unfold noDigits. induction pre as [|c pre IH]; intros H; [reflexivity|].
  rewrite append_cons. simpl in *. apply andb_true_iff in H as [Hc H].
  apply negb_true_iff in Hc. rewrite Hc. now apply IH.
Qed.

Lemma matchNumber_none (s : string) : noDigits s -> matchNumber s = None.
Proof.
  intros H. rewrite <- (append_nil_r s). now rewrite matchNumber_skip.
Qed.

Lemma matchNumber_digit (ip s : string) :
  digits ip -> matchNumber (ip +:+ s) = Some (tokenAt (ip +:+ s)).
Proof.
  intros [Hd Hne]. destruct ip as [|c ip]; [congruence|].
  rewrite append_cons. simpl in *. apply andb_true_iff in Hd as [Hc _].
  now rewrite Hc.
Qed.

Lemma dot_not_digit (s : string) : notStarting Js.isDigit (String "." s).
Proof. reflexivity. Qed.

Lemma tokenAt_integer (ip rest : string) :
  digits ip -> notStarting Js.isDigit rest -> notStarting isDot rest ->
  tokenAt (ip +:+ rest) = ip.
Proof.
  intros [Hd _] Hr Hdot. unfold tokenAt. rewrite (spanDigits_app _ _ Hd Hr).
  destruct rest as [|c rest]; [reflexivity|].
  simpl in Hdot. unfold isDot in Hdot. apply Ascii.eqb_neq in Hdot.
  destruct c as [[] [] [] [] [] [] [] []]; try reflexivity. congruence.
Qed.

Lemma tokenAt_decimal (ip fp rest : string) :
  digits ip -> allChars Js.isDigit fp = true -> notStarting Js.isDigit rest ->
  tokenAt (ip +:+ "." +:+ fp +:+ rest) = ip +:+ "." +:+ fp.
Proof.
  intros [Hd _] Hf Hr. unfold tokenAt.
  change ("." +:+ fp +:+ rest) with (String "." (fp +:+ rest)).
  rewrite (spanDigits_app ip _ Hd (dot_not_digit _)).
  now rewrite (spanDigits_app _ _ Hf Hr).
Qed.

Lemma parseFloat_integer (ip : string) :
  digits ip -> Js.parseFloat ip = Js.ofDecimal (Js.digitsValue 0 ip) 0.
Proof.
  intros [Hd Hne]. unfold Js.parseFloat. rewrite (spanDigits_all _ Hd).
  rewrite append_nil_r. destruct ip; [congruence | reflexivity].
Qed.

Lemma parseFloat_decimal (ip fp : string) :
  digits ip -> allChars Js.isDigit fp = true ->
  Js.parseFloat (ip +:+ "." +:+ fp) =
  Js.ofDecimal (Js.digitsValue 0 (ip +:+ fp)) (String.length fp).
Proof.
  intros [Hd Hne] Hf. unfold Js.parseFloat.
  change ("." +:+ fp) with (String "." fp).
  rewrite (spanDigits_app ip _ Hd (dot_not_digit _)), (spanDigits_all _ Hf).
  destruct ip; [congruence | reflexivity].
Qed.

(** C4.  [parseABV] returns the number written by the first numeric
    token of its text, and 0 when the text has no digit.  The token starts
    at the first digit: the digits there, and when a dot follows them, the
    dot and the digits after it.  Its value is the number nearest to the
    decimal it writes.  In particular "4.5%" gives 4.5, "N/A" gives 0 and
    "5" gives 5. *)
Theorem parseABV_first_numeric_token :
  parseABV "4.5%" = Prim2SF 4.5%float /\
  parseABV "N/A" = Js.zero /\
  parseABV "5" = Prim2SF 5%float /\
  (forall s, noDigits s -> parseABV s = Js.zero) /\
  (forall pre ip rest,
      noDigits pre -> digits ip ->
      notStarting Js.isDigit rest -> notStarting isDot rest ->
      parseABV (pre +:+ ip +:+ rest) = Js.ofDecimal (Js.digitsValue 0 ip) 0) /\
  (forall pre ip fp rest,
      noDigits pre -> digits ip -> allChars Js.isDigit fp = true ->
      notStarting Js.isDigit rest ->
      parseABV (pre +:+ ip +:+ "." +:+ fp +:+ rest) =
      Js.ofDecimal (Js.digitsValue 0 (ip +:+ fp)) (String.length fp)).
Proof.
  split; [vm_compute; reflexivity|]. split; [reflexivity|].
  split; [vm_compute; reflexivity|]. split; [|split].
  - intros s H. unfold parseABV. now rewrite matchNumber_none.
  - intros pre ip rest Hp Hi Hr Hdot. unfold parseABV.
    rewrite matchNumber_skip, matchNumber_digit by assumption.
    rewrite tokenAt_integer by assumption. now apply parseFloat_integer.
  - intros pre ip fp rest Hp Hi Hf Hr. unfold parseABV.
    rewrite matchNumber_skip, matchNumber_digit by assumption.
    rewrite tokenAt_decimal by assumption. now apply parseFloat_decimal.
Qed.

(** The three texts of the specification are instances of the general
    statement: "4.5%" is the token "4.5" before "%", and "5" the token "5". *)
Lemma parseABV_first_numeric_token_witness :
  parseABV (EmptyString +:+ "4" +:+ "." +:+ "5" +:+ "%") = Js.ofDecimal 45 1 /\
  parseABV ("abv " +:+ "5" +:+ " approx") = Js.ofDecimal 5 0 /\
  parseABV "N/A" = Js.zero.
Proof.
  destruct parseABV_first_numeric_token as (_ & _ & _ & Hnone & Hint & Hdec).
  split; [|split].
  - apply (Hdec EmptyString "4" "5" "%"); repeat split; discriminate.
  - apply (Hint "abv " "5" " approx"); repeat split; discriminate.
  - apply (Hnone "N/A"). reflexivity.
Defined.

End ParseABV.

(** ** Order of numbers *)

Section NumberOrder.

Lemma compare_cont_antisym (p q : positive) :
  Pos.compare_cont Eq q p = CompOpp (Pos.compare_cont Eq p q).
Proof. apply (Pos.compare_antisym p q). Qed.

Lemma SFcompare_antisym (x y : Js.number) :
  SFcompare y x = option_map CompOpp (SFcompare x y).
Proof.
  destruct x as [sx|sx| |sx mx ex], y as [sy|sy| |sy my ey]; simpl;
    try reflexivity; try (destruct sx; reflexivity); try (destruct sy; reflexivity);
    try (destruct sx, sy; reflexivity).
  destruct sx, sy; simpl; try reflexivity;
    rewrite (Z.compare_antisym ex ey); destruct (ex ?= ey)%Z; simpl; try reflexivity;
    rewrite compare_cont_antisym; now rewrite ?CompOpp_involutive.
Qed.

Lemma lt_not_ge (x y : Js.number) : Js.lt x y = true -> Js.ge x y = false.
Proof.
  unfold Js.lt, Js.ge, SFltb, SFleb. rewrite (SFcompare_antisym x y).
  destruct (SFcompare x y) as [[]|]; simpl; congruence.
Qed.

Lemma lt_irrefl (x : Js.number) : Js.lt x x = false.
Proof.
  unfold Js.lt, SFltb. pose proof (SFcompare_antisym x x) as H.
  destruct (SFcompare x x) as [[]|]; simpl in *; congruence.
Qed.

End NumberOrder.

(** ** C5, C6, C7: the filter engine *)

Section Filter.

Lemma matchesStyle_classified (sel : string) (b : BeerEntry) (c : string) :
  extractCleanBeerStyle (style b) = Some c ->
  matchesStyle sel b = Normal (styleClause sel b).
Proof.
  intros E. unfold matchesStyle, styleClause. rewrite E, truthy_eqb, negb_involutive.
  destruct (String.eqb sel EmptyString); simpl; [reflexivity|].
  destruct (Js.includes (Js.toLowerCase c) (Js.toLowerCase sel)); reflexivity.
Qed.

Lemma matchesStyle_unclassified (sel : string) (b : BeerEntry) :
  extractCleanBeerStyle (style b) = None ->
  matchesStyle sel b =
  if String.eqb sel EmptyString then Normal true
  else Throw (TypeError "Cannot read properties of null (reading 'toLowerCase')").
Proof.
  intros E. unfold matchesStyle. rewrite E, truthy_eqb, negb_involutive.
  destruct (String.eqb sel EmptyString); reflexivity.
Qed.

Lemma filterCallback_evaluable (a : App) (el : Elements) (b : BeerEntry) :
  evaluable el b -> filterCallback a el b = Normal (passes a el b).
Proof.
  intros H. unfold filterCallback, passes.
  destruct (extractCleanBeerStyle (style b)) as [c|] eqn:E.
  - now rewrite (matchesStyle_classified _ _ _ E).
  - destruct H as [H | H]; [|congruence].
    rewrite (matchesStyle_unclassified _ _ E), H. reflexivity.
Qed.

Lemma filterCallback_throws (a : App) (el : Elements) (b : BeerEntry) :
  ~ evaluable el b ->
  filterCallback a el b =
  Throw (TypeError "Cannot read properties of null (reading 'toLowerCase')").
Proof.
  intros H. unfold filterCallback, evaluable in *.
  destruct (extractCleanBeerStyle (style b)) as [c|] eqn:E.
  - exfalso. apply H. right. discriminate.
  - rewrite (matchesStyle_unclassified _ _ E).
    destruct (String.eqb_spec (styleFilter el) EmptyString); [|reflexivity].
    exfalso. apply H. now left.
Qed.

Lemma evaluable_dec (el : Elements) (b : BeerEntry) :
  evaluable el b \/ ~ evaluable el b.
Proof.
  unfold evaluable. destruct (String.eqb_spec (styleFilter el) EmptyString); [now left; left|].
  destruct (extractCleanBeerStyle (style b)); [left; right; discriminate|].
  right. intros [H | H]; congruence.
Qed.

(** The filter returns normally exactly when the callback is defined on
    every record, and then returns the records that pass, in their order. *)
Lemma filterRecords_Normal (a : App) (el : Elements) (records l : list BeerEntry) :
  filterRecords a el records = Normal l <->
  Forall (evaluable el) records /\ l = List.filter (passes a el) records.
Proof.
  unfold filterRecords. revert l.
  induction records as [|b records IH]; intros l; simpl.
  - split; [intros [= <-]; split; [constructor | reflexivity] | intros [_ ->]; reflexivity].
  - destruct (evaluable_dec el b) as [Hb | Hb].
    + rewrite (filterCallback_evaluable a el b Hb).
      destruct (arrayFilter (filterCallback a el) records) as [kept|e] eqn:E.
      * destruct (proj1 (IH kept) eq_refl) as [HF ->]. split.
        -- intros [= <-]. split; [now constructor | reflexivity].
        -- intros [_ ->]. reflexivity.
      * split; [discriminate|]. intros [HF _]. inversion HF as [|? ? _ HF']; subst.
        discriminate (proj2 (IH _) (conj HF' eq_refl)).
    + rewrite (filterCallback_throws a el b Hb). split; [discriminate|].
      intros [HF _]. inversion HF; subst. contradiction.
Qed.




Lemma SFcompare_zero_sign (s s' : bool) (y : Js.number) :
  SFcompare (S754_zero s) y = SFcompare (S754_zero s') y.
Proof. destruct y; reflexivity. Qed.

Lemma matchesABV_zero (lo hi : Js.number) (b : BeerEntry) (s : bool) :
  Js.lt Js.zero lo = true -> abv b = S754_zero s -> matchesABV lo hi b = false.
Proof.
  intros Hlo Hb. unfold matchesABV. rewrite Hb.
  assert (Js.lt (S754_zero s) lo = true) as H.
  { unfold Js.lt, SFltb in *. now rewrite (SFcompare_zero_sign s false). }
  now rewrite (lt_not_ge _ _ H).
Qed.

(** C6.  The ABV clause holds of a record exactly when
    abvMin <= abv and abv <= abvMax, and no record passes the filter
    without it.  Filtering the records with ABVs 3, 4, 5, 6, 7 by
    abvMin = 4 and abvMax = 6 gives the records with ABVs 4, 5, 6.  A record
    whose ABV is 0 fails the clause, and is in no result, whenever
    abvMin > 0. *)
Theorem matchesABV_inclusive_range :
  (forall lo hi b,
      matchesABV lo hi b = true <->
      Js.le lo (abv b) = true /\ Js.le (abv b) hi = true) /\
  (forall a el b,
      filterCallback a el b = Normal true ->
      Js.le (abvMin el) (abv b) = true /\ Js.le (abv b) (abvMax el) = true) /\
  filterBeers (withBeers (List.map abvBeer [3; 4; 5; 6; 7]))
              (controls EmptyString (Js.ofZ 4) (Js.ofZ 6)) =
    (setFilteredBeers (withBeers (List.map abvBeer [3; 4; 5; 6; 7]))
                      (List.map abvBeer [4; 5; 6]), Normal tt) /\
  (forall lo hi b s,
      Js.lt Js.zero lo = true -> abv b = S754_zero s ->
      matchesABV lo hi b = false) /\
  (forall a el records l b s,
      Js.lt Js.zero (abvMin el) = true -> abv b = S754_zero s ->
      filterRecords a el records = Normal l -> ~ In b l).
Proof.
  split; [|split; [|split; [|split]]].
  - intros lo hi b. unfold matchesABV, Js.ge, Js.le. apply andb_true_iff.
  - intros a el b H. unfold filterCallback in H.
    destruct (matchesStyle (styleFilter el) b) as [m|e]; [|discriminate].
    injection H as H. rewrite !andb_true_iff in H. destruct H as [_ H].
    unfold matchesABV, Js.ge, Js.le in *. now apply andb_true_iff.
  - vm_compute. reflexivity.
  - apply matchesABV_zero.
  - intros a el records l b s Hlo Hb HN Hin.
    apply filterRecords_Normal in HN as [_ ->].
    apply filter_In in Hin as [_ Hp]. unfold passes in Hp.
    rewrite (matchesABV_zero _ _ _ _ Hlo Hb), andb_false_r in Hp. discriminate.
Qed.

Lemma matchesABV_inclusive_range_witness :
  Js.lt Js.zero (Js.ofZ 4) = true /\
  matchesABV (Js.ofZ 4) (Js.ofZ 6) (sampleBeer "Beer" "Bitter" (parseABV "N/A")) = false /\
  matchesABV (Js.ofZ 4) (Js.ofZ 6) (abvBeer 6) = true.
Proof.
  destruct matchesABV_inclusive_range as (Hiff & _ & _ & Hzero & _).
  split; [reflexivity|]. split.
  - apply (Hzero _ _ _ false); reflexivity.
  - apply Hiff. split; reflexivity.
Defined.

(** C5.  For a classified record the style clause of the callback has
    the value the specification gives it: no style selected, or the
    category contains the selected value, or the raw style does.  For an
    unclassified record and a selected style the callback throws a
    TypeError instead of evaluating the clause: with the records
    "India Pale Ale" and "Unknown Fruit Thing" and the style IPA selected,
    the clause would keep the first record and drop the second, and
    [filterBeers] throws and leaves the filtered records as they were. *)
Theorem matchesStyle_unclassified_throws :
  (forall sel b c,
      extractCleanBeerStyle (style b) = Some c ->
      matchesStyle sel b = Normal (styleClause sel b)) /\
  (forall sel b,
      extractCleanBeerStyle (style b) = None -> sel <> EmptyString ->
      matchesStyle sel b =
      Throw (TypeError "Cannot read properties of null (reading 'toLowerCase')")) /\
  extractCleanBeerStyle "Unknown Fruit Thing" = None /\
  List.filter (passes (withBeers []) (controls "IPA" (Js.ofZ 0) (Js.ofZ 20)))
    [sampleBeer "Hop" "India Pale Ale" (Js.ofZ 5);
     sampleBeer "Odd" "Unknown Fruit Thing" (Js.ofZ 4)] =
    [sampleBeer "Hop" "India Pale Ale" (Js.ofZ 5)] /\
  styleClause "fruit" (sampleBeer "Odd" "Unknown Fruit Thing" (Js.ofZ 4)) = true /\
  matchesStyle "fruit" (sampleBeer "Odd" "Unknown Fruit Thing" (Js.ofZ 4)) =
    Throw (TypeError "Cannot read properties of null (reading 'toLowerCase')") /\
  filterBeers
    (withBeers [sampleBeer "Hop" "India Pale Ale" (Js.ofZ 5);
                sampleBeer "Odd" "Unknown Fruit Thing" (Js.ofZ 4)])
    (controls "IPA" (Js.ofZ 0) (Js.ofZ 20)) =
    (withBeers [sampleBeer "Hop" "India Pale Ale" (Js.ofZ 5);
                sampleBeer "Odd" "Unknown Fruit Thing" (Js.ofZ 4)],
     Throw (TypeError "Cannot read properties of null (reading 'toLowerCase')")).
Proof.
  split; [exact matchesStyle_classified|]. split.
  { intros sel b E Hne. rewrite (matchesStyle_unclassified _ _ E).
    now destruct (String.eqb_spec sel EmptyString). }
  repeat split; vm_compute; reflexivity.
Qed.



End Filter.

(** ** C9: toggling availability *)

Section Toggle.

Lemma hasKey_spec (b n : string) (r : Store.Item) :
  Store.hasKey b n r = true <-> keyOf r = (b, n).
Proof.
  unfold Store.hasKey, keyOf. rewrite andb_true_iff, !String.eqb_eq.
  split; [intros [-> ->]; reflexivity | intros [= -> ->]; auto].
Qed.

Lemma find_hd_filter {A} (f : A -> bool) (l : list A) :
  List.find f l = hd_error (List.filter f l).
Proof.
  induction l as [|x l IH]; simpl; [reflexivity|].
  destruct (f x); [reflexivity | exact IH].
Qed.

Lemma filter_absent (b n : string) (l : list Store.Item) :
  ~ In (b, n) (List.map keyOf l) -> List.filter (Store.hasKey b n) l = [].
Proof.
  intros H. apply filter_nil_iff. intros r Hr.
  destruct (Store.hasKey b n r) eqn:E; [|reflexivity].
  exfalso. apply H. apply hasKey_spec in E. rewrite <- E. now apply in_map.
Qed.

(** In a keyed table at most one row has a given key. *)
Lemma keyed_filter (b n : string) (l : list Store.Item) :
  NoDup (List.map keyOf l) ->
  List.filter (Store.hasKey b n) l = [] \/
  exists r, List.filter (Store.hasKey b n) l = [r].
Proof.
  induction l as [|x l IH]; intros H; simpl; [now left|].
  simpl in H. apply NoDup_cons in H as [Hx Hl].
  destruct (Store.hasKey b n x) eqn:E; [|now apply IH].
  right. exists x. apply hasKey_spec in E. rewrite E, list_elem_of_In in Hx.
  now rewrite (filter_absent _ _ _ Hx).
Qed.

Lemma keyOf_updated b n st u t r : keyOf (updated b n st u t r) = keyOf r.
Proof. unfold updated. now destruct (Store.hasKey b n r). Qed.

Lemma hasKey_updated b' n' b n st u t r :
  Store.hasKey b' n' (updated b n st u t r) = Store.hasKey b' n' r.
Proof. unfold updated. now destruct (Store.hasKey b n r). Qed.

Lemma map_keyOf_updated b n st u t (l : list Store.Item) :
  List.map keyOf (List.map (updated b n st u t) l) = List.map keyOf l.
Proof.
  rewrite List.map_map. apply List.map_ext. intros r. apply keyOf_updated.
Qed.

Lemma filter_updated b n st u t (l : list Store.Item) :
  List.filter (Store.hasKey b n) (List.map (updated b n st u t) l) =
  List.map (updated b n st u t) (List.filter (Store.hasKey b n) l).
Proof.
  induction l as [|r l IH]; simpl; [reflexivity|].
  rewrite hasKey_updated. destruct (Store.hasKey b n r); simpl; now rewrite IH.
Qed.

Lemma existsb_filter_nil {A} (f : A -> bool) (l : list A) :
  List.filter f l = [] -> existsb f l = false.
Proof.
  intros H. destruct (existsb f l) eqn:E; [|reflexivity].
  apply existsb_exists in E as [x [Hin Hx]].
  rewrite (proj1 (filter_nil_iff f l) H x Hin) in Hx. discriminate.
Qed.

Lemma toggle_succeeds (w : World) (x : BeerEntry) (env : Env) :
  supabase (app w) = true -> Store.reachable (store w) = true -> Store.keyed (store w) ->
  let s' := toggledStore (store w) (brewery x) (beer x)
              (fst (getUserId (userIdItem w) env)) (now env) in
  toggleBeerAvailability w x env =
  {| app := loadBeerAvailability s' (app w);
     userIdItem := snd (getUserId (userIdItem w) env);
     store := s' |}.
Proof.
  intros Hc Hr Hk. unfold toggleBeerAvailability, toggledStore, Store.selectSingle.
  rewrite Hc, Hr. simpl negb. cbv iota.
  destruct (getUserId (userIdItem w) env) as [userId item]. simpl fst. simpl snd.
  destruct (keyed_filter (brewery x) (beer x) _ Hk) as [E | [r E]]; rewrite E; simpl.
  - unfold Store.insert. rewrite Hr. simpl.
    now rewrite (existsb_filter_nil _ _ E).
  - unfold Store.update. now rewrite Hr.
Qed.

Lemma toggledStore_status (s : Store.t) (b n u : string) (t : Z) :
  Store.keyed s ->
  Store.status (toggledStore s b n u t) b n = negb (Store.status s b n) /\
  Store.stamp (toggledStore s b n u t) b n = Some t.
Proof.
  intros Hk. unfold Store.status, Store.stamp, toggledStore.
  rewrite !find_hd_filter.
  destruct (keyed_filter b n _ Hk) as [E | [r E]]; rewrite E; simpl.
  - rewrite List.filter_app, E. simpl. unfold Store.hasKey. simpl.
    rewrite !String.eqb_refl. simpl. auto.
  - rewrite filter_updated, E. simpl. unfold updated.
    assert (Store.hasKey b n r = true) as ->.
    { assert (In r (List.filter (Store.hasKey b n) (Store.rows s))) as H
        by (rewrite E; now left).
      now apply filter_In in H. }
    simpl. auto.
Qed.

Lemma toggledStore_keyed (s : Store.t) (b n u : string) (t : Z) :
  Store.keyed s -> Store.keyed (toggledStore s b n u t).
Proof.
  intros Hk. unfold Store.keyed, toggledStore in *. fold keyOf in *.
  destruct (keyed_filter b n _ Hk) as [E | [r E]]; rewrite E; simpl.
  - rewrite List.map_app. simpl. apply NoDup_app. split; [exact Hk|]. split.
    + intros k Hin Hin'. apply list_elem_of_singleton in Hin'. subst k.
      apply list_elem_of_In, in_map_iff in Hin as [r [Hr Hin]].
      pose proof (proj2 (hasKey_spec b n r) Hr) as Hh.
      rewrite (proj1 (filter_nil_iff _ _) E r Hin) in Hh. discriminate.
    + apply NoDup_singleton.
  - now rewrite map_keyOf_updated.
Qed.

Lemma toggledStore_reachable (s : Store.t) (b n u : string) (t : Z) :
  Store.reachable s = true -> Store.reachable (toggledStore s b n u t) = true.
Proof.
  intros H. unfold toggledStore.
  destruct (List.filter (Store.hasKey b n) (Store.rows s)) as [|r [|r' l]]; auto.
Qed.

Lemma loadBeerAvailability_supabase (s : Store.t) (a : App) :
  supabase (loadBeerAvailability s a) = supabase a.
Proof.
  unfold loadBeerAvailability. destruct (supabase a) eqn:E; simpl; [|exact E].
  destruct (Store.error (Store.selectAll s)); [exact E|].
  destruct (Store.data (Store.selectAll s)); exact E.
Qed.

(** *** The map after a load *)

(** The last row set under a key is the one the map holds. *)
Lemma fold_setItem_lookup (l : list Store.Item) (m : gmap string AvailabilityInfo) (k : string) :
  fold_left setItem l m !! k =
  match List.find (fun r => String.eqb (cacheKey r) k) (rev l) with
  | Some r => Some (infoOf r)
  | None => m !! k
  end.
Proof.
  induction l as [|r l IH] using rev_ind; [reflexivity|].
  rewrite fold_left_app, rev_app_distr. simpl. unfold setItem at 1.
  fold (cacheKey r). fold (infoOf r).
  destruct (String.eqb_spec (cacheKey r) k) as [-> | Hne].
  - apply lookup_insert_eq.
  - rewrite lookup_insert_ne by exact Hne. exact IH.
Qed.

Lemma find_rev_unique {A} (f : A -> bool) (l : list A) :
  (List.filter f l = [] \/ exists r, List.filter f l = [r]) ->
  List.find f (rev l) = List.find f l.
Proof.
  intros H. rewrite !find_hd_filter, List.filter_rev.
  destruct H as [-> | [r ->]]; reflexivity.
Qed.

Lemma cache_lookup (s : Store.t) (b n : string) :
  Store.keyed s -> collisionFree s b n ->
  fold_left setItem (Store.rows s) ∅ !! availabilityKey b n =
  option_map infoOf (List.find (Store.hasKey b n) (Store.rows s)).
Proof.
  intros Hk Hc. rewrite fold_setItem_lookup.
  assert (List.filter (fun r => String.eqb (cacheKey r) (availabilityKey b n)) (Store.rows s)
          = List.filter (Store.hasKey b n) (Store.rows s)) as E.
  { apply List.filter_ext_in. intros r Hin.
    destruct (Store.hasKey b n r) eqn:Hh.
    - apply hasKey_spec in Hh. unfold keyOf in Hh. injection Hh as Hb Hn.
      unfold cacheKey. rewrite Hb, Hn. apply String.eqb_refl.
    - destruct (String.eqb_spec (cacheKey r) (availabilityKey b n)) as [Heq|]; [|reflexivity].
      apply (Hc r Hin), hasKey_spec in Heq. congruence. }
  rewrite find_rev_unique.
  - rewrite !find_hd_filter, E.
    destruct (List.filter (Store.hasKey b n) (Store.rows s)); reflexivity.
  - rewrite E. now apply keyed_filter.
Qed.

Lemma loaded_availability (s : Store.t) (a : App) (x : BeerEntry) :
  supabase a = true -> Store.reachable s = true ->
  Store.keyed s -> collisionFree s (brewery x) (beer x) ->
  getBeerAvailability (loadBeerAvailability s a) x = Store.status s (brewery x) (beer x).
Proof.
  intros Ha Hr Hk Hc. unfold loadBeerAvailability, Store.selectAll.
  rewrite Ha, Hr. simpl. unfold getBeerAvailability. simpl.
  rewrite (cache_lookup s _ _ Hk Hc). unfold Store.status.
  destruct (List.find (Store.hasKey (brewery x) (beer x)) (Store.rows s)); reflexivity.
Qed.

Lemma toggledStore_collisionFree (s : Store.t) (b n u : string) (t : Z) :
  Store.keyed s -> collisionFree s b n -> collisionFree (toggledStore s b n u t) b n.
Proof.
  intros Hk Hc. unfold collisionFree, toggledStore.
  destruct (keyed_filter b n _ Hk) as [E | [r0 E]]; rewrite E; simpl; intros r Hin Hkey.
  - apply in_app_or in Hin as [Hin | [<- | []]]; [now apply Hc | reflexivity].
  - apply in_map_iff in Hin as [r' [<- Hin]].
    rewrite keyOf_updated. apply (Hc r' Hin).
    unfold cacheKey in *. pose proof (keyOf_updated b n (negb (Store.is_available r0)) u t r') as K.
    unfold keyOf in K. injection K as K1 K2. now rewrite K1, K2 in Hkey.
Qed.

(** One toggle, when the client exists, the store can be reached and the
    table is keyed. *)
Lemma toggle_effect (w : World) (x : BeerEntry) (env : Env) :
  supabase (app w) = true -> Store.reachable (store w) = true -> Store.keyed (store w) ->
  Store.status (store (toggleBeerAvailability w x env)) (brewery x) (beer x) =
    negb (Store.status (store w) (brewery x) (beer x)) /\
  Store.stamp (store (toggleBeerAvailability w x env)) (brewery x) (beer x) =
    Some (now env) /\
  Store.keyed (store (toggleBeerAvailability w x env)) /\
  Store.reachable (store (toggleBeerAvailability w x env)) = true /\
  supabase (app (toggleBeerAvailability w x env)) = true /\
  (collisionFree (store w) (brewery x) (beer x) ->
   collisionFree (store (toggleBeerAvailability w x env)) (brewery x) (beer x) /\
   getBeerAvailability (app (toggleBeerAvailability w x env)) x =
     Store.status (store (toggleBeerAvailability w x env)) (brewery x) (beer x)).
Proof.
  intros Hc Hr Hk. rewrite (toggle_succeeds w x env Hc Hr Hk). cbv zeta.
  cbn [store app].
  generalize (fst (getUserId (userIdItem w) env)). intros u.
  destruct (toggledStore_status (store w) (brewery x) (beer x) u (now env) Hk) as [St Tm].
  pose proof (toggledStore_keyed (store w) (brewery x) (beer x) u (now env) Hk) as Hk'.
  pose proof (toggledStore_reachable (store w) (brewery x) (beer x) u (now env) Hr) as Hr'.
  split; [exact St|]. split; [exact Tm|]. split; [exact Hk'|]. split; [exact Hr'|].
  split; [now rewrite loadBeerAvailability_supabase|].
  intros Hcf.
  pose proof (toggledStore_collisionFree (store w) (brewery x) (beer x) u (now env) Hk Hcf)
    as Hcf'.
  split; [exact Hcf'|]. now apply loaded_availability.
Qed.

(** C9, as the script has it.  When the client exists, the store can be
    reached and its table is keyed, a toggle negates the availability the
    store holds for the beer (no row counting as unavailable) and stamps
    the row with the clock reading of the call; so two toggles in a row
    restore the availability, and the stored time after the second toggle
    is later than after the first exactly when the clock reading of the
    second call is later.  When no other row has the beer's key in the map,
    the map shows the store's value after each toggle. *)
Theorem toggle_twice_restores_status (w : World) (x : BeerEntry) (env1 env2 : Env) :
  supabase (app w) = true ->
  Store.reachable (store w) = true ->
  Store.keyed (store w) ->
  Store.status (store (toggleBeerAvailability w x env1)) (brewery x) (beer x) =
    negb (Store.status (store w) (brewery x) (beer x)) /\
  Store.status
    (store (toggleBeerAvailability (toggleBeerAvailability w x env1) x env2))
    (brewery x) (beer x) =
    Store.status (store w) (brewery x) (beer x) /\
  Store.stamp (store (toggleBeerAvailability w x env1)) (brewery x) (beer x) =
    Some (now env1) /\
  Store.stamp
    (store (toggleBeerAvailability (toggleBeerAvailability w x env1) x env2))
    (brewery x) (beer x) = Some (now env2) /\
  (stampLt
     (Store.stamp (store (toggleBeerAvailability w x env1)) (brewery x) (beer x))
     (Store.stamp
        (store (toggleBeerAvailability (toggleBeerAvailability w x env1) x env2))
        (brewery x) (beer x)) <->
   now env1 < now env2) /\
  (collisionFree (store w) (brewery x) (beer x) ->
   getBeerAvailability (app (toggleBeerAvailability w x env1)) x =
     negb (Store.status (store w) (brewery x) (beer x)) /\
   getBeerAvailability
     (app (toggleBeerAvailability (toggleBeerAvailability w x env1) x env2)) x =
     Store.status (store w) (brewery x) (beer x)).
Proof.
  intros Hc Hr Hk.
  destruct (toggle_effect w x env1 Hc Hr Hk) as (St1 & Tm1 & Hk1 & Hr1 & Hc1 & Hcf1).
  destruct (toggle_effect _ x env2 Hc1 Hr1 Hk1) as (St2 & Tm2 & _ & _ & _ & Hcf2).
  split; [exact St1|]. split; [now rewrite St2, St1, negb_involutive|].
  split; [exact Tm1|]. split; [exact Tm2|]. split.
  - rewrite Tm1, Tm2. simpl. tauto.
  - intros Hcf. destruct (Hcf1 Hcf) as [Hcf' Hg1].
    destruct (Hcf2 Hcf') as [_ Hg2]. split.
    + now rewrite Hg1.
    + now rewrite Hg2, St2, St1, negb_involutive.
Qed.

Lemma toggle_twice_restores_status_witness :
  Store.status (store (toggleBeerAvailability emptyWorld golden at1000))
    "Brewer A" "Golden" = true /\
  Store.status
    (store (toggleBeerAvailability (toggleBeerAvailability emptyWorld golden at1000)
              golden at2000)) "Brewer A" "Golden" = false /\
  Store.stamp
    (store (toggleBeerAvailability (toggleBeerAvailability emptyWorld golden at1000)
              golden at2000)) "Brewer A" "Golden" = Some 2000.
Proof.
  assert (Store.keyed (store emptyWorld)) as Hk by constructor.
  destruct (toggle_twice_restores_status emptyWorld golden at1000 at2000
              eq_refl eq_refl Hk) as (H1 & H2 & _ & H4 & _).
  split; [exact H1|]. split; [exact H2 | exact H4].
Defined.

(** With the same clock reading at both calls the stored time does not
    increase, although both writes succeed. *)
Lemma toggle_same_clock_stamp_equal :
  Store.status (store (toggleBeerAvailability emptyWorld golden at1000))
    "Brewer A" "Golden" = true /\
  Store.stamp (store (toggleBeerAvailability emptyWorld golden at1000))
    "Brewer A" "Golden" = Some 1000 /\
  Store.status
    (store (toggleBeerAvailability (toggleBeerAvailability emptyWorld golden at1000)
              golden at1000)) "Brewer A" "Golden" = false /\
  Store.stamp
    (store (toggleBeerAvailability (toggleBeerAvailability emptyWorld golden at1000)
              golden at1000)) "Brewer A" "Golden" = Some 1000 /\
  ~ stampLt
      (Store.stamp (store (toggleBeerAvailability emptyWorld golden at1000))
         "Brewer A" "Golden")
      (Store.stamp
         (store (toggleBeerAvailability
                   (toggleBeerAvailability emptyWorld golden at1000) golden at1000))
         "Brewer A" "Golden").
Proof.
  repeat split; try reflexivity. vm_compute. intros H. discriminate H.
Qed.

(** The earlier revision does not restore the status: from a beer marked
    available, one toggle and two toggles both leave it unavailable. *)
Lemma toggle_upsert_twice_unavailable :
  Store.status (store (toggleBeerAvailability emptyWorld golden at1000))
    "Brewer A" "Golden" = true /\
  Store.status
    (store (toggleBeerAvailability_upsert
              (toggleBeerAvailability emptyWorld golden at1000) golden at2000))
    "Brewer A" "Golden" = false /\
  Store.status
    (store (toggleBeerAvailability_upsert
              (toggleBeerAvailability_upsert
                 (toggleBeerAvailability emptyWorld golden at1000) golden at2000)
              golden at2000))
    "Brewer A" "Golden" = false.
Proof. repeat split; vm_compute; reflexivity. Qed.

End Toggle.

(** ** C8: the sort engine *)

Section KeyOrder.

Lemma SFltb_asym (x y : Js.number) : Js.lt x y = true -> Js.lt y x = false.
Proof.
  unfold Js.lt, SFltb. rewrite (SFcompare_antisym x y).
  destruct (SFcompare x y) as [[]|]; simpl; congruence.
Qed.

Ltac order_cases :=
  repeat match goal with
         | |- context [(?a ?= ?b)%Z] => destruct (Z.compare_spec a b)
         | |- context [Pos.compare_cont Eq ?a ?b] =>
             change (Pos.compare_cont Eq a b) with (Pos.compare a b);
             destruct (Pos.compare_spec a b)
         end;
  simpl; try congruence; try lia.

Lemma SFltb_trans (x y z : Js.number) :
  Js.lt x y = true -> Js.lt y z = true -> Js.lt x z = true.
Proof.
  unfold Js.lt, SFltb.
  destruct x as [sx|sx| |sx mx ex], y as [sy|sy| |sy my ey], z as [sz|sz| |sz mz ez];
    simpl; try congruence;
    try (destruct sx; simpl; congruence);
    try (destruct sy; simpl; congruence);
    try (destruct sz; simpl; congruence);
    try (destruct sx, sy; simpl; congruence);
    try (destruct sy, sz; simpl; congruence);
    try (destruct sx, sz; simpl; congruence);
    try (destruct sx, sy, sz; simpl; congruence).
  all: destruct sx, sy, sz; simpl; try congruence; order_cases.
Qed.

Lemma strLt_irrefl (s : string) : Js.strLt s s = false.
Proof.
  induction s as [|c s IH]; simpl; [reflexivity|].
  now rewrite N.ltb_irrefl, N.eqb_refl, IH.
Qed.

Lemma strLt_trans (a b c : string) :
  Js.strLt a b = true -> Js.strLt b c = true -> Js.strLt a c = true.
Proof.
  revert b c. induction a as [|x a IH]; intros [|y b] [|z c]; simpl; try congruence.
  rewrite !orb_true_iff, !andb_true_iff, !N.ltb_lt, !N.eqb_eq.
  intros [H1 | [H1 H1']] [H2 | [H2 H2']].
  - left. lia.
  - left. lia.
  - left. lia.
  - right. split; [lia | now apply (IH b c)].
Qed.

Lemma strLt_asym (a b : string) : Js.strLt a b = true -> Js.strLt b a = false.
Proof.
  intros H. destruct (Js.strLt b a) eqn:E; [|reflexivity].
  pose proof (strLt_trans _ _ _ H E) as T. now rewrite strLt_irrefl in T.
Qed.

Lemma keyLt_irrefl (x : SortKey) : keyLt x x = false.
Proof. destruct x; simpl; [apply lt_irrefl | apply strLt_irrefl]. Qed.

Lemma keyLt_asym (x y : SortKey) : keyLt x y = true -> keyLt y x = false.
Proof. destruct x, y; simpl; try congruence; [apply SFltb_asym | apply strLt_asym]. Qed.

Lemma keyLt_trans (x y z : SortKey) :
  keyLt x y = true -> keyLt y z = true -> keyLt x z = true.
Proof.
  destruct x, y, z; simpl; try congruence; [apply SFltb_trans | apply strLt_trans].
Qed.

End KeyOrder.

(** *** The comparator *)

Section Comparator.

Lemma threeWay_lt (x y : SortKey) :
  threeWay keyLt x y < 0 <-> keyLt x y = true.
Proof.
  unfold threeWay. destruct (keyLt x y) eqn:E.
  - rewrite (keyLt_asym _ _ E). split; [reflexivity | lia].
  - destruct (keyLt y x); split; (congruence || lia).
Qed.

Lemma threeWay_gt (x y : SortKey) :
  0 < threeWay keyLt x y <-> keyLt y x = true.
Proof.
  unfold threeWay. destruct (keyLt y x) eqn:E.
  - destruct (keyLt x y); split; (reflexivity || lia).
  - destruct (keyLt x y); split; (congruence || lia).
Qed.

Lemma threeWay_antisym (x y : SortKey) :
  threeWay keyLt y x = - threeWay keyLt x y.
Proof.
  unfold threeWay. destruct (keyLt x y) eqn:E.
  - now rewrite (keyLt_asym _ _ E).
  - destruct (keyLt y x); reflexivity.
Qed.

Lemma threeWay_refl (x : SortKey) : threeWay keyLt x x = 0.
Proof. unfold threeWay. now rewrite keyLt_irrefl. Qed.

Lemma sortComparator_sortable (a : App) (col : string) (d : Direction) (x y : BeerEntry) :
  sortable col = true ->
  sortComparator a col d x y =
  Normal (directed d (threeWay keyLt (sortKeyOf a col x) (sortKeyOf a col y))).
Proof.
  unfold sortable, sortComparator, sortKeyOf, stringField.
  destruct (String.eqb col "abv"); [reflexivity|].
  destruct (String.eqb col "last_seen"); [reflexivity|].
  destruct (String.eqb col "brewery"); [reflexivity|].
  destruct (String.eqb col "beer"); [reflexivity|].
  destruct (String.eqb col "style"); [reflexivity|].
  destruct (String.eqb col "location"); [reflexivity|].
  destruct (String.eqb col "bar"); [reflexivity | discriminate].
Qed.

(** A column without a sort key: the comparator throws on every pair. *)
Lemma sortComparator_unsortable (a : App) (col : string) (d : Direction) (x y : BeerEntry) :
  sortable col = false ->
  sortComparator a col d x y =
  Throw (TypeError "Cannot read properties of undefined (reading 'toString')").
Proof.
  unfold sortable, sortComparator, stringField.
  destruct (String.eqb col "abv"); [discriminate|].
  destruct (String.eqb col "last_seen"); [discriminate|].
  destruct (String.eqb col "brewery"); [discriminate|].
  destruct (String.eqb col "beer"); [discriminate|].
  destruct (String.eqb col "style"); [discriminate|].
  destruct (String.eqb col "location"); [discriminate|].
  destruct (String.eqb col "bar"); [discriminate | reflexivity].
Qed.

End Comparator.

(** *** The contract of the host's sort *)

(** *** Sorting records with distinct keys *)

Lemma number_eq_dec (x y : Js.number) : {x = y} + {x <> y}.
Proof.
  decide equality; try apply Z.eq_dec; try apply Pos.eq_dec; apply Bool.bool_dec.
Qed.

Lemma BeerEntry_eq_dec (x y : BeerEntry) : {x = y} + {x <> y}.
Proof. decide equality; try apply String.string_dec; apply number_eq_dec. Qed.

Lemma StronglySorted_weaken {A} (R1 R2 : A -> A -> Prop) (l : list A) :
  NoDup l ->
  (forall x y, In x l -> In y l -> x <> y -> R1 x y -> R2 x y) ->
  StronglySorted R1 l -> StronglySorted R2 l.
Proof.
  intros Hn Himp H. induction H as [|x l Hl IH Hx]; [constructor|].
  apply NoDup_cons in Hn as [Hnx Hn]. constructor.
  - apply IH; [exact Hn|]. intros y z Hy Hz. apply Himp; now right.
  - rewrite Forall_forall in *. intros y Hy. apply Himp.
    + now left.
    + right. now apply list_elem_of_In.
    + intros ->. contradiction.
    + now apply Hx.
Qed.

Section DistinctKeys.

Variable k : BeerEntry -> SortKey.

Lemma distinctKeys_separated (l : list BeerEntry) : distinctKeys k l -> separated k l.
Proof.
  intros H. split.
  - induction H as [|x l Hx Hl IH]; [constructor|].
    apply NoDup_cons. split; [|exact IH].
    intros Hin. rewrite Forall_forall in Hx. specialize (Hx x Hin).
    rewrite keyLt_irrefl in Hx. destruct Hx; discriminate.
  - intros x y Hx Hy Hne.
    destruct (ForallOrdPairs_In H x y Hx Hy) as [E | [E | E]]; [contradiction| |]; tauto.
Qed.

Lemma separated_perm (l l' : list BeerEntry) :
  Permutation l l' -> separated k l -> separated k l'.
Proof.
  intros P [Hn Hs]. split.
  - now rewrite <- P.
  - intros x y Hx Hy. apply Hs; eapply Permutation_in; try eassumption;
      now apply Permutation_sym.
Qed.

Lemma before_trans (d : Direction) (x y z : BeerEntry) :
  before k d x y -> before k d y z -> before k d x z.
Proof.
  unfold before. destruct d; intros H1 H2.
  - exact (keyLt_trans _ _ _ H1 H2).
  - exact (keyLt_trans _ _ _ H2 H1).
Qed.

Lemma before_asym (d : Direction) (x y : BeerEntry) :
  before k d x y -> before k d y x -> False.
Proof.
  unfold before. destruct d; intros H1 H2;
    rewrite (keyLt_asym _ _ H1) in H2; discriminate.
Qed.

Section WithComparator.

Variable cmp : Comparator.
Variable d : Direction.
Hypothesis cmp_value :
  forall x y, cmp x y = Normal (directed d (threeWay keyLt (k x) (k y))).

Lemma cmpLt_before (x y : BeerEntry) : cmpLt cmp x y <-> before k d x y.
Proof.
  unfold cmpLt, before. rewrite cmp_value. split.
  - intros [v [[= <-] Hv]]. destruct d; simpl in Hv.
    + now apply threeWay_lt.
    + apply threeWay_gt. lia.
  - intros H. eexists. split; [reflexivity|]. destruct d; simpl.
    + now apply threeWay_lt.
    + apply threeWay_gt in H. lia.
Qed.

Lemma cmpGt_before (x y : BeerEntry) : cmpGt cmp x y <-> before k d y x.
Proof.
  unfold cmpGt, before. rewrite cmp_value. split.
  - intros [v [[= <-] Hv]]. destruct d; simpl in Hv.
    + now apply threeWay_gt.
    + apply threeWay_lt. lia.
  - intros H. eexists. split; [reflexivity|]. destruct d; simpl.
    + now apply threeWay_gt.
    + apply threeWay_lt in H. lia.
Qed.

Lemma cmpEq_same (l : list BeerEntry) (x y : BeerEntry) :
  separated k l -> In x l -> In y l -> cmpEq cmp x y -> x = y.
Proof.
  intros [Hn Hs] Hx Hy H. unfold cmpEq in H. rewrite cmp_value in H.
  injection H as H.
  assert (threeWay keyLt (k x) (k y) = 0) as H0 by (destruct d; simpl in H; lia).
  destruct (BeerEntry_eq_dec x y) as [E | Hne]; [exact E|].
  exfalso. destruct (Hs x y Hx Hy Hne) as [L | L].
  - apply threeWay_lt in L. lia.
  - apply threeWay_gt in L. lia.
Qed.

Lemma cmp_consistent (l : list BeerEntry) : separated k l -> consistentOn cmp l.
Proof.
  intros Hs. constructor.
  - intros x y _ _. rewrite cmp_value. now eexists.
  - intros x _. unfold cmpEq. rewrite cmp_value, threeWay_refl. now destruct d.
  - intros x y Hx Hy H. pose proof (cmpEq_same l x y Hs Hx Hy H) as E.
    subst y. exact H.
  - intros x y z Hx Hy Hz H1 H2. pose proof (cmpEq_same l x y Hs Hx Hy H1) as E.
    subst y. exact H2.
  - intros x y z _ _ _. rewrite !cmpLt_before. apply before_trans.
  - intros x y z _ _ _. rewrite !cmpGt_before. intros H1 H2.
    exact (before_trans d _ _ _ H2 H1).
Qed.

(** With distinct keys, an array in the order of the contract is strictly
    ordered by key. *)
Lemma contract_sorted (l : list BeerEntry) :
  separated k l ->
  StronglySorted (fun x y => ~ cmpLt cmp y x) l -> StronglySorted (before k d) l.
Proof.
  intros [Hn Hs]. apply StronglySorted_weaken; [exact Hn|].
  intros x y Hx Hy Hne H. rewrite cmpLt_before in H.
  destruct (Hs x y Hx Hy Hne) as [L | L]; unfold before in *; destruct d; tauto.
Qed.

End WithComparator.

End DistinctKeys.

Section SortedByKey.

Variable k : BeerEntry -> SortKey.

Lemma before_opposite (d : Direction) (x y : BeerEntry) :
  before k (opposite d) x y <-> before k d y x.
Proof. destruct d; simpl; tauto. Qed.

Lemma StronglySorted_rev {A} (R : A -> A -> Prop) (l : list A) :
  StronglySorted R l -> StronglySorted (fun x y => R y x) (rev l).
Proof.
  induction 1 as [|x l Hl IH Hx]; simpl; [constructor|].
  apply StronglySorted_app. split; [|split].
  - intros y z Hy Hz. apply list_elem_of_singleton in Hz. subst z.
    rewrite Forall_forall in Hx. apply Hx.
    apply list_elem_of_In, in_rev, list_elem_of_In. exact Hy.
  - exact IH.
  - repeat constructor.
Qed.

Lemma StronglySorted_weaken_all {A} (R1 R2 : A -> A -> Prop) (l : list A) :
  (forall x y, R1 x y -> R2 x y) -> StronglySorted R1 l -> StronglySorted R2 l.
Proof.
  intros Himp H. induction H as [|x l Hl IH Hx]; constructor; [exact IH|].
  rewrite Forall_forall in *. intros y Hy. now apply Himp, Hx.
Qed.

Lemma before_sorted_unique (d : Direction) (l1 l2 : list BeerEntry) :
  StronglySorted (before k d) l1 -> StronglySorted (before k d) l2 ->
  Permutation l1 l2 -> l1 = l2.
Proof.
  apply StronglySorted_unique_strong. intros x y _ _ H1 H2.
  destruct (before_asym k d x y H1 H2).
Qed.

Lemma opposite_sorted_rev (d : Direction) (l : list BeerEntry) :
  StronglySorted (before k (opposite d)) l -> StronglySorted (before k d) (rev l).
Proof.
  intros H. apply StronglySorted_rev in H.
  eapply StronglySorted_weaken_all; [|exact H].
  intros x y. apply before_opposite.
Qed.

End SortedByKey.

(** *** Insertion sort meets the contract *)

Section InsertionSort.

Variable cmp : Comparator.
Variable l : list BeerEntry.
Hypothesis consistent : consistentOn cmp l.

Lemma cmp_trichotomy (x y : BeerEntry) :
  In x l -> In y l -> cmpLt cmp x y \/ cmpEq cmp x y \/ cmpGt cmp x y.
Proof.
  intros Hx Hy. destruct (consistent_total _ _ consistent x y Hx Hy) as [v Hv].
  destruct (Z.lt_trichotomy v 0) as [H | [H | H]].
  - left. now exists v.
  - right. left. unfold cmpEq. now rewrite Hv, H.
  - right. right. now exists v.
Qed.

Lemma cmpLt_not_cmpEq (x y : BeerEntry) : cmpLt cmp x y -> cmpEq cmp x y -> False.
Proof. intros [v [Hv Hlt]] He. unfold cmpEq in He. rewrite Hv in He. injection He. lia. Qed.

Lemma cmpGt_not_cmpEq (x y : BeerEntry) : cmpGt cmp x y -> cmpEq cmp x y -> False.
Proof. intros [v [Hv Hgt]] He. unfold cmpEq in He. rewrite Hv in He. injection He. lia. Qed.

Lemma cmpLt_not_cmpGt (x y : BeerEntry) : cmpLt cmp x y -> cmpGt cmp x y -> False.
Proof.
  intros [v [Hv Hlt]] [v' [Hv' Hgt]]. rewrite Hv in Hv'. injection Hv' as <-. lia.
Qed.

Lemma cmpLt_asym (x y : BeerEntry) :
  In x l -> In y l -> cmpLt cmp x y -> cmpLt cmp y x -> False.
Proof.
  intros Hx Hy H1 H2.
  apply (cmpLt_not_cmpEq x x).
  - exact (consistent_lt_trans _ _ consistent x y x Hx Hy Hx H1 H2).
  - exact (consistent_refl _ _ consistent x Hx).
Qed.

Lemma cmpGt_asym (x y : BeerEntry) :
  In x l -> In y l -> cmpGt cmp x y -> cmpGt cmp y x -> False.
Proof.
  intros Hx Hy H1 H2.
  apply (cmpGt_not_cmpEq x x).
  - exact (consistent_gt_trans _ _ consistent x y x Hx Hy Hx H1 H2).
  - exact (consistent_refl _ _ consistent x Hx).
Qed.

Lemma cmpGt_cmpLt (x y : BeerEntry) :
  In x l -> In y l -> cmpGt cmp x y -> cmpLt cmp y x.
Proof.
  intros Hx Hy H. destruct (cmp_trichotomy y x Hy Hx) as [L | [E | G]].
  - exact L.
  - destruct (cmpGt_not_cmpEq x y H). exact (consistent_sym _ _ consistent y x Hy Hx E).
  - destruct (cmpGt_asym x y Hx Hy H G).
Qed.

(** If [x] compares less than or equal to [y], what may follow [y] may
    follow [x]. *)
Lemma notAfter_le (x y z : BeerEntry) :
  In x l -> In y l -> In z l ->
  cmpLt cmp x y \/ cmpEq cmp x y -> notAfter cmp y z -> notAfter cmp x z.
Proof.
  intros Hx Hy Hz Hxy Hyz Hzx. apply Hyz. destruct Hxy as [L | E].
  - exact (consistent_lt_trans _ _ consistent z x y Hz Hx Hy Hzx L).
  - destruct (cmp_trichotomy z y Hz Hy) as [L | [E' | G]]; [exact L | exfalso..].
    + apply (cmpLt_not_cmpEq z x Hzx).
      apply (consistent_eq_trans _ _ consistent z y x Hz Hy Hx E').
      exact (consistent_sym _ _ consistent x y Hx Hy E).
    + apply (cmpLt_not_cmpEq y x).
      * apply (consistent_lt_trans _ _ consistent y z x Hy Hz Hx); [|exact Hzx].
        now apply cmpGt_cmpLt.
      * exact (consistent_sym _ _ consistent x y Hx Hy E).
Qed.

Lemma insertSorted_contract (x : BeerEntry) (s : list BeerEntry) :
  In x l -> incl s l -> StronglySorted (notAfter cmp) s ->
  exists r, insertSorted cmp x s = Normal r /\
            Permutation (x :: s) r /\ StronglySorted (notAfter cmp) r.
Proof.
  intros Hx. induction s as [|y s IH]; intros Hs Hsorted; simpl.
  - exists [x]. repeat constructor.
  - assert (In y l) as Hy by (apply Hs; now left).
    assert (incl s l) as Hs' by (intros z Hz; apply Hs; now right).
    apply StronglySorted_inv in Hsorted as [Hsorted Hall].
    destruct (consistent_total _ _ consistent x y Hx Hy) as [v Hv]. rewrite Hv.
    destruct (Z.leb_spec v 0) as [Hle | Hgt].
    + exists (x :: y :: s). split; [reflexivity|]. split; [reflexivity|].
      assert (cmpLt cmp x y \/ cmpEq cmp x y) as Hxy.
      { destruct (Z.eq_dec v 0) as [-> | Hne]; [now right|].
        left. exists v. split; [exact Hv | lia]. }
      constructor; [now constructor|]. constructor.
      * intros Hyx. destruct Hxy as [L | E].
        -- exact (cmpLt_asym x y Hx Hy L Hyx).
        -- apply (cmpLt_not_cmpEq y x Hyx).
           exact (consistent_sym _ _ consistent x y Hx Hy E).
      * rewrite Forall_forall in *. intros z Hz.
        apply (notAfter_le x y z Hx Hy); [|exact Hxy | now apply Hall].
        apply Hs'. now apply list_elem_of_In.
    + destruct (IH Hs' Hsorted) as [r [Hr [Hp Hsr]]]. rewrite Hr.
      exists (y :: r). split; [reflexivity|]. split.
      * rewrite <- Hp. apply perm_swap.
      * constructor; [exact Hsr|]. rewrite Forall_forall in *. intros z Hz.
        rewrite <- Hp in Hz. apply elem_of_cons in Hz as [-> | Hz].
        -- intros [v' [Hv' Hlt]]. rewrite Hv in Hv'. injection Hv' as <-. lia.
        -- now apply Hall.
Qed.

Lemma insertionSort_incl (s : list BeerEntry) :
  incl s l ->
  exists r, insertionSort cmp s = Normal r /\
            Permutation s r /\ StronglySorted (notAfter cmp) r.
Proof.
  induction s as [|x s IH]; intros Hs; simpl.
  - exists []. repeat constructor.
  - assert (In x l) as Hx by (apply Hs; now left).
    assert (incl s l) as Hs' by (intros z Hz; apply Hs; now right).
    destruct (IH Hs') as [r [Hr [Hp Hsr]]]. rewrite Hr.
    assert (incl r l) as Hrl.
    { intros z Hz. apply Hs'. eapply Permutation_in; [|exact Hz]. now symmetry. }
    destruct (insertSorted_contract x r Hx Hrl Hsr) as [r' [Hr' [Hp' Hsr']]].
    exists r'. split; [exact Hr'|]. split; [|exact Hsr'].
    now rewrite <- Hp', Hp.
Qed.

End InsertionSort.

Lemma insertionSort_contract : sortContract insertionSort.
Proof.
  intros cmp l Hc. apply (insertionSort_incl cmp l Hc l). intros x Hx. exact Hx.
Qed.

(** *** Sorting twice *)

Section SortTableProperties.

Variable hostSort : Comparator -> list BeerEntry -> Completion (list BeerEntry).
Hypothesis hostSort_contract : sortContract hostSort.

Lemma nextSort_same (s : SortState) (col : string) :
  column s = Some col ->
  nextSort s col = {| column := Some col; direction := opposite (direction s) |}.
Proof.
  intros H. unfold nextSort. rewrite H, String.eqb_refl. now destruct (direction s).
Qed.

Lemma nextSort_other (s : SortState) (col : string) :
  column s <> Some col ->
  nextSort s col = {| column := Some col; direction := asc |}.
Proof.
  intros H. unfold nextSort. destruct (column s) as [c|]; [|reflexivity].
  destruct (String.eqb_spec c col) as [-> | Hne]; [congruence | reflexivity].
Qed.

Lemma nextSort_column (s : SortState) (col : string) :
  column (nextSort s col) = Some col.
Proof.
  unfold nextSort. destruct (column s) as [c|]; [|reflexivity].
  destruct (String.eqb_spec c col) as [-> | Hne]; reflexivity.
Qed.

Lemma sortTable_currentSort (a : App) (col : string) :
  currentSort (fst (sortTable hostSort a col)) = nextSort (currentSort a) col.
Proof.
  unfold sortTable. cbv zeta.
  destruct (hostSort _ _); reflexivity.
Qed.

(** One call on a sortable column, on records without ties: the call
    returns, and leaves the records in the strict order of their keys in
    the direction it has set. *)
Lemma sortTable_sorted (a : App) (col : string) :
  sortable col = true -> separated (sortKeyOf a col) (filteredBeers a) ->
  exists sorted,
    sortTable hostSort a col =
      (setFilteredBeers (setCurrentSort a (nextSort (currentSort a) col)) sorted,
       Normal tt) /\
    Permutation (filteredBeers a) sorted /\
    StronglySorted
      (before (sortKeyOf a col) (direction (nextSort (currentSort a) col))) sorted.
Proof.
  intros Hcol Hsep. unfold sortTable. cbv zeta.
  set (a1 := setCurrentSort a (nextSort (currentSort a) col)).
  set (d := direction (currentSort a1)).
  assert (forall x y, sortComparator a1 col d x y =
            Normal (directed d (threeWay keyLt (sortKeyOf a col x) (sortKeyOf a col y))))
    as Hval by (intros x y; now rewrite sortComparator_sortable).
  destruct (hostSort_contract (sortComparator a1 col d) (filteredBeers a1))
    as [sorted [Hs [Hp Hsorted]]].
  { exact (cmp_consistent _ _ _ Hval _ Hsep). }
  rewrite Hs. exists sorted. split; [reflexivity|]. split; [exact Hp|].
  apply (contract_sorted _ _ _ Hval); [|exact Hsorted].
  exact (separated_perm _ _ _ Hp Hsep).
Qed.

(** C8.  [sortTable(column)] on the active column reverses the direction
    and keeps the column; on any other column it makes the column active
    with the direction ascending.  On a column that has sort keys, and
    records without ties on it, a call returns and permutes the records,
    a second call on the same column returns the records in exactly the
    reverse order, and a third call restores the order of the first. *)
Theorem sortTable_twice_reverses :
  (forall a col,
      currentSort (fst (sortTable hostSort a col)) = nextSort (currentSort a) col) /\
  (forall s col,
      column s = Some col ->
      nextSort s col = {| column := Some col; direction := opposite (direction s) |}) /\
  (forall s col,
      column s <> Some col ->
      nextSort s col = {| column := Some col; direction := asc |}) /\
  (forall a col,
      sortable col = true -> noTies a col (filteredBeers a) ->
      snd (sortTable hostSort a col) = Normal tt /\
      snd (sortTable hostSort (fst (sortTable hostSort a col)) col) = Normal tt /\
      Permutation (filteredBeers a) (filteredBeers (fst (sortTable hostSort a col))) /\
      filteredBeers (fst (sortTable hostSort (fst (sortTable hostSort a col)) col)) =
        rev (filteredBeers (fst (sortTable hostSort a col))) /\
      filteredBeers
        (fst (sortTable hostSort
                (fst (sortTable hostSort (fst (sortTable hostSort a col)) col)) col)) =
        filteredBeers (fst (sortTable hostSort a col))).
Proof.
  split; [exact sortTable_currentSort|].
  split; [exact nextSort_same|]. split; [exact nextSort_other|].
  intros a col Hcol Hties. apply distinctKeys_separated in Hties.
  destruct (sortTable_sorted a col Hcol Hties) as [l1 [E1 [P1 S1]]].
  rewrite E1. cbn [fst snd].
  set (a1 := setFilteredBeers (setCurrentSort a (nextSort (currentSort a) col)) l1) in *.
  assert (separated (sortKeyOf a1 col) (filteredBeers a1)) as Hsep1
    by exact (separated_perm _ _ _ P1 Hties).
  destruct (sortTable_sorted a1 col Hcol Hsep1) as [l2 [E2 [P2 S2]]].
  rewrite E2. cbn [fst snd].
  set (a2 := setFilteredBeers (setCurrentSort a1 (nextSort (currentSort a1) col)) l2) in *.
  assert (separated (sortKeyOf a2 col) (filteredBeers a2)) as Hsep2
    by exact (separated_perm _ _ _ P2 Hsep1).
  destruct (sortTable_sorted a2 col Hcol Hsep2) as [l3 [E3 [P3 S3]]].
  rewrite E3. cbn [fst snd].
  assert (direction (nextSort (currentSort a1) col) =
          opposite (direction (nextSort (currentSort a) col))) as D2.
  { change (currentSort a1) with (nextSort (currentSort a) col).
    now rewrite (nextSort_same _ _ (nextSort_column _ _)). }
  assert (direction (nextSort (currentSort a2) col) =
          direction (nextSort (currentSort a) col)) as D3.
  { change (currentSort a2) with (nextSort (currentSort a1) col).
    rewrite (nextSort_same _ _ (nextSort_column _ _)). cbn [direction].
    rewrite D2. now destruct (direction (nextSort (currentSort a) col)). }
  change (sortKeyOf a1 col) with (sortKeyOf a col) in *.
  change (sortKeyOf a2 col) with (sortKeyOf a col) in *.
  change (filteredBeers a1) with l1 in *. change (filteredBeers a2) with l2 in *.
  rewrite D2 in S2. rewrite D3 in S3.
  split; [reflexivity|]. split; [reflexivity|]. split; [exact P1|].
  assert (l1 = rev l2) as R12.
  { apply (before_sorted_unique _ _ _ _ S1 (opposite_sorted_rev _ _ _ S2)).
    rewrite P2. apply Permutation_rev. }
  split.
  - cbn [filteredBeers a2 setFilteredBeers]. now rewrite R12, rev_involutive.
  - cbn [filteredBeers setFilteredBeers]. symmetry.
    apply (before_sorted_unique _ _ _ _ S1 S3). now rewrite P2.
Qed.

End SortTableProperties.

Lemma sortTable_twice_reverses_witness :
  filteredBeers (fst (sortTable insertionSort threeBeers "abv")) =
    List.map abvBeer [3; 4; 5] /\
  filteredBeers
    (fst (sortTable insertionSort (fst (sortTable insertionSort threeBeers "abv")) "abv")) =
    rev (filteredBeers (fst (sortTable insertionSort threeBeers "abv"))).
Proof.
  split; [reflexivity|].
  apply (proj2 (proj2 (proj2
           (sortTable_twice_reverses insertionSort insertionSort_contract)))
           threeBeers "abv" eq_refl).
  unfold noTies, distinctKeys.
  change (filteredBeers threeBeers) with [abvBeer 5; abvBeer 3; abvBeer 4].
  apply FOP_cons.
  { repeat (apply List.Forall_cons; [right; vm_compute; reflexivity|]).
    apply List.Forall_nil. }
  apply FOP_cons.
  { apply List.Forall_cons; [left; vm_compute; reflexivity | apply List.Forall_nil]. }
  apply FOP_cons; [apply List.Forall_nil | apply FOP_nil].
Defined.

(** * Further properties of the script *)

(** ** Numbers read from text are not NaN *)

Section RoundingSign.

Lemma shr_1_nonneg (mrs : shr_record) : 0 <= shr_m mrs -> 0 <= shr_m (shr_1 mrs).
Proof.
  destruct mrs as [m r s]. simpl. destruct m as [|[p|p|]|[p|p|]]; simpl; lia.
Qed.

Lemma iter_shr_1_nonneg (p : positive) (mrs : shr_record) :
  0 <= shr_m mrs -> 0 <= shr_m (SpecFloat.iter_pos shr_1 p mrs).
Proof.
  revert mrs. induction p as [p IH|p IH|]; intros mrs H; simpl.
  - apply IH, IH, shr_1_nonneg, H.
  - apply IH, IH, H.
  - apply shr_1_nonneg, H.
Qed.

Lemma shr_record_of_loc_m (m : Z) (l : SpecFloat.location) : shr_m (shr_record_of_loc m l) = m.
Proof. destruct l as [|[]]; reflexivity. Qed.

Lemma shr_fexp_nonneg (m e : Z) (l : SpecFloat.location) :
  0 <= m -> 0 <= shr_m (fst (shr_fexp Js.prec Js.emax m e l)).
Proof.
  intros H. unfold shr_fexp, shr.
  destruct (fexp Js.prec Js.emax (Zdigits2 m + e) - e) as [|p|p]; simpl;
    rewrite ?shr_record_of_loc_m; try exact H.
  apply iter_shr_1_nonneg. now rewrite shr_record_of_loc_m.
Qed.

Lemma round_nearest_even_nonneg (m : Z) (l : SpecFloat.location) :
  0 <= m -> 0 <= round_nearest_even m l.
Proof.
  intros H. unfold round_nearest_even. destruct l as [|[]]; try exact H.
  - destruct (Z.even m); lia.
  - lia.
Qed.

(** Rounding a quotient that is not negative gives +0, a positive number
    or +Infinity. *)
Lemma binary_round_aux_nonNegative (m e : Z) (l : SpecFloat.location) :
  0 <= m -> nonNegative (binary_round_aux Js.prec Js.emax false m e l) = true.
Proof.
  intros H. unfold binary_round_aux.
  pose proof (shr_fexp_nonneg m e l H) as H1.
  destruct (shr_fexp Js.prec Js.emax m e l) as [mrs' e']. simpl in H1.
  pose proof (shr_fexp_nonneg
                (round_nearest_even (shr_m mrs') (loc_of_shr_record mrs')) e' loc_Exact
                (round_nearest_even_nonneg _ _ H1)) as H2.
  destruct (shr_fexp Js.prec Js.emax
              (round_nearest_even (shr_m mrs') (loc_of_shr_record mrs')) e' loc_Exact)
    as [mrs'' e'']. simpl in H2.
  destruct (shr_m mrs'') as [|p|p]; [reflexivity | | lia].
  now destruct (e'' <=? Js.emax - Js.prec)%Z.
Qed.

Lemma binary_round_aux_notNaN (s : bool) (m e : Z) (l : SpecFloat.location) :
  0 <= m -> notNaN (binary_round_aux Js.prec Js.emax s m e l) = true.
Proof.
  intros H. unfold binary_round_aux.
  pose proof (shr_fexp_nonneg m e l H) as H1.
  destruct (shr_fexp Js.prec Js.emax m e l) as [mrs' e']. simpl in H1.
  pose proof (shr_fexp_nonneg
                (round_nearest_even (shr_m mrs') (loc_of_shr_record mrs')) e' loc_Exact
                (round_nearest_even_nonneg _ _ H1)) as H2.
  destruct (shr_fexp Js.prec Js.emax
              (round_nearest_even (shr_m mrs') (loc_of_shr_record mrs')) e' loc_Exact)
    as [mrs'' e'']. simpl in H2.
  destruct (shr_m mrs'') as [|p|p]; [reflexivity | | lia].
  now destruct (e'' <=? Js.emax - Js.prec)%Z.
Qed.

Lemma ofZ_notNaN (z : Z) : notNaN (Js.ofZ z) = true.
Proof.
  unfold Js.ofZ, binary_normalize. destruct z as [|p|p]; [reflexivity| |];
    unfold binary_round;
    destruct (shl_align p 0 (fexp Js.prec Js.emax (Z.pos (digits2_pos p) + 0))) as [mz ez];
    now apply binary_round_aux_notNaN.
Qed.

Lemma ofDecimal_nonNegative (m : Z) (k : nat) :
  0 <= m -> nonNegative (Js.ofDecimal m k) = true.
Proof.
  intros H. unfold Js.ofDecimal. destruct m as [|p|p]; [reflexivity | | lia].
  unfold SFdiv_core_binary.
  set (s := (0 - 0 - _)%Z).
  set (m' := match s with Z.pos _ => Z.shiftl (Z.pos p) s | 0 => Z.pos p | Z.neg _ => 0 end).
  assert (0 <= m') as Hm'.
  { subst m'. destruct s; [lia | | lia]. apply Z.shiftl_nonneg. lia. }
  assert (0 < 10 ^ Z.of_nat k) as Hk by (apply Z.pow_pos_nonneg; lia).
  pose proof (Z.div_pos m' (10 ^ Z.of_nat k) Hm' Hk) as Hq.
  unfold Z.div in Hq. destruct (Z.div_eucl m' (10 ^ Z.of_nat k)) as [q r]. simpl in Hq.
  now apply binary_round_aux_nonNegative.
Qed.

End RoundingSign.

(** ** The extractor's records *)

Section ExtractedRecords.

Lemma allChars_app (p : ascii -> bool) (a b : string) :
  allChars p (a +:+ b) = allChars p a && allChars p b.
Proof.
  induction a as [|c a IH]; [reflexivity|].
  rewrite append_cons. simpl. now rewrite IH, andb_assoc.
Qed.

Lemma spanDigits_digits (s : string) : allChars Js.isDigit (fst (Js.spanDigits s)) = true.
Proof.
  induction s as [|c s IH]; [reflexivity|]. simpl.
  destruct (Js.isDigit c) eqn:E; [|reflexivity].
  destruct (Js.spanDigits s) as [d r]. simpl in *. now rewrite E, IH.
Qed.

Lemma digitValue_nonneg (c : ascii) : Js.isDigit c = true -> 0 <= Js.digitValue c.
Proof.
  unfold Js.isDigit, Js.digitValue. rewrite andb_true_iff, !N.leb_le. lia.
Qed.

Lemma digitsValue_nonneg (s : string) (acc : Z) :
  allChars Js.isDigit s = true -> 0 <= acc -> 0 <= Js.digitsValue acc s.
Proof.
  revert acc. induction s as [|c s IH]; intros acc Hs Hacc; simpl in *; [exact Hacc|].
  apply andb_true_iff in Hs as [Hc Hs]. apply IH; [exact Hs|].
  pose proof (digitValue_nonneg c Hc). lia.
Qed.

Lemma parseFloat_nonNegative (c : ascii) (s : string) :
  Js.isDigit c = true -> nonNegative (Js.parseFloat (String c s)) = true.
Proof.
  intros Hc. unfold Js.parseFloat. simpl Js.spanDigits. rewrite Hc.
  pose proof (spanDigits_digits s) as Hd.
  destruct (Js.spanDigits s) as [d r]. simpl in Hd. cbn [Js.truthy orb].
  apply ofDecimal_nonNegative, digitsValue_nonneg; [|lia].
  rewrite allChars_app. simpl. rewrite Hc, Hd. simpl.
  destruct r as [|x r]; [reflexivity|].
  destruct (Ascii.eqb_spec x "."%char) as [-> | Hne].
  - apply spanDigits_digits.
  - destruct x as [[] [] [] [] [] [] [] []]; try reflexivity. congruence.
Qed.

Lemma matchNumber_starts_with_digit (s tok : string) :
  matchNumber s = Some tok -> exists c t, tok = String c t /\ Js.isDigit c = true.
Proof.
  induction s as [|c s IH]; simpl; [discriminate|].
  destruct (Js.isDigit c) eqn:E; [|exact IH].
  intros [= <-]. unfold tokenAt. simpl Js.spanDigits. rewrite E.
  destruct (Js.spanDigits s) as [d r].
  destruct r as [|x r]; [now exists c, d|].
  destruct x as [[] [] [] [] [] [] [] []]; rewrite ?append_cons; now eexists _, _.
Qed.

Lemma parseABV_nonNegative (s : string) : nonNegative (parseABV s) = true.
Proof.
  unfold parseABV. destruct (matchNumber s) as [tok|] eqn:E; [|reflexivity].
  destruct (matchNumber_starts_with_digit s tok E) as [c [t [-> Hc]]].
  now apply parseFloat_nonNegative.
Qed.

Lemma trim_trimmed (s : string) : trimmed (Js.trim s).
Proof.
  destruct (trim_spec s) as [l [r [_ [_ [_ [H1 H2]]]]]]. now split.
Qed.

Lemma entryOf_wellFormed (cells : Row) : qualifies cells = true -> wellFormed (entryOf cells).
Proof.
  intros H. apply qualifies_spec in H as (_ & H1 & H2 & H3).
  unfold wellFormed, entryOf. simpl.
  repeat split; try assumption; try apply trim_trimmed; apply parseABV_nonNegative.
Qed.

Lemma parseRows_wellFormed (rows : list Row) : Forall wellFormed (parseRows [] rows).
Proof.
  rewrite parseRows_spec. simpl. apply Forall_forall. intros b Hb.
  apply list_elem_of_In, in_map_iff in Hb as [cells [<- Hin]].
  apply filter_In in Hin as [_ Hq]. now apply entryOf_wellFormed.
Qed.

(** X1.  Every record the extractor makes has a brewery and a name that
    are not empty, a brewery other than the header label, text fields
    without white space at either end and an ABV that is neither NaN nor
    negative; there are at most as many records as rows.  After a call of
    [parseHtmlData] that returns, the records shown are the records
    extracted, and there is at least one. *)
Theorem parseHtmlData_records_wellFormed :
  (forall rows,
      Forall wellFormed (parseRows [] rows) /\
      (length (parseRows [] rows) <= length rows)%nat) /\
  (forall a rows,
      snd (parseHtmlData a rows) = Normal tt ->
      beers (fst (parseHtmlData a rows)) = parseRows [] rows /\
      filteredBeers (fst (parseHtmlData a rows)) = parseRows [] rows /\
      parseRows [] rows <> []).
Proof.
  split.
  - intros rows. split; [apply parseRows_wellFormed|].
    rewrite parseRows_spec. simpl. rewrite length_map. apply filter_length_le.
  - intros a rows. unfold parseHtmlData.
    destruct (parseRows [] rows) as [|b l]; simpl; [discriminate|].
    intros _. repeat split. discriminate.
Qed.

Lemma parseHtmlData_records_wellFormed_witness :
  snd (parseHtmlData (initialApp true) sampleRows) = Normal tt /\
  beers (fst (parseHtmlData (initialApp true) sampleRows)) = parseRows [] sampleRows.
Proof.
  split; [reflexivity|].
  apply (proj2 parseHtmlData_records_wellFormed (initialApp true) sampleRows). reflexivity.
Defined.

(** X2.  [parseABV] never gives NaN, a negative number or negative zero:
    whatever the text, the result is +0, a positive finite number or
    +Infinity, so a comparison of an ABV with a bound is never undefined
    on the side of the ABV. *)
Theorem parseABV_never_NaN (abvText : string) :
  nonNegative (parseABV abvText) = true /\
  notNaN (parseABV abvText) = true /\
  Js.lt (parseABV abvText) Js.zero = false.
Proof.
  pose proof (parseABV_nonNegative abvText) as H.
  destruct (parseABV abvText) as [[]|[]| |[] m e]; try discriminate; repeat split.
Qed.

End ExtractedRecords.

(** ** The classifier and letter case *)

Section ClassifierCase.

Lemma toLowerCase_app (a b : string) :
  Js.toLowerCase (a +:+ b) = Js.toLowerCase a +:+ Js.toLowerCase b.
Proof.
  induction a as [|c a IH]; [reflexivity|].
  rewrite append_cons. simpl. now rewrite IH, append_cons.
Qed.

Lemma lowerChar_idem (c : ascii) : Js.lowerChar (Js.lowerChar c) = Js.lowerChar c.
Proof. destruct c as [[] [] [] [] [] [] [] []]; reflexivity. Qed.

Lemma toLowerCase_idem (s : string) : Js.toLowerCase (Js.toLowerCase s) = Js.toLowerCase s.
Proof.
  induction s as [|c s IH]; [reflexivity|]. simpl. now rewrite lowerChar_idem, IH.
Qed.

Lemma findCoreType_category (lowerStyle : string) (types : list CoreType) (c : string) :
  findCoreType lowerStyle types = Some c -> In c (List.map category types).
Proof.
  intros H. apply findCoreType_Some in H as (before & t & after & -> & <- & _).
  apply in_map, in_or_app. right. now left.
Qed.

(** X3.  The classifier ignores letter case; its result, when there is
    one, is one of the twenty categories of the table; and a text that
    contains "ale" in any letter case is always classified, since the last
    rule catches it. *)
Theorem extractCleanBeerStyle_case_and_fallback :
  (forall styleText,
      extractCleanBeerStyle (Js.toLowerCase styleText) = extractCleanBeerStyle styleText) /\
  (forall styleText c,
      extractCleanBeerStyle styleText = Some c ->
      In c (List.map category coreTypes) /\ c <> EmptyString) /\
  (forall pre word post,
      Js.toLowerCase word = "ale" ->
      extractCleanBeerStyle (pre +:+ word +:+ post) <> None).
Proof.
  split; [|split].
  - intros s. unfold extractCleanBeerStyle. now rewrite toLowerCase_idem.
  - intros s c H. apply findCoreType_category in H. split; [exact H|].
    intros ->. simpl in H. repeat (destruct H as [H | H]; [discriminate|]). exact H.
  - intros pre word post Hw H. unfold extractCleanBeerStyle in H.
    rewrite findCoreType_None in H.
    apply (H {| keywords := ["ale"]; category := "Ale" |}).
    + simpl. do 19 right. now left.
    + exists "ale". split; [now left|].
      exists (Js.toLowerCase pre), (Js.toLowerCase post).
      now rewrite !toLowerCase_app, Hw.
Qed.

Lemma extractCleanBeerStyle_case_and_fallback_witness :
  Js.toLowerCase "ALE" = "ale" /\
  extractCleanBeerStyle ("Real " +:+ "ALE" +:+ " of the house") <> None.
Proof.
  split; [reflexivity|].
  apply (proj2 (proj2 extractCleanBeerStyle_case_and_fallback)). reflexivity.
Defined.

End ClassifierCase.

(** ** The filter choices *)

Section SetValues.

Context {A : Type} (eqb : A -> A -> bool).
Hypothesis eqb_eq : forall x y, eqb x y = true <-> x = y.

Lemma existsb_eqb (x : A) (l : list A) : existsb (eqb x) l = true <-> In x l.
Proof.
  rewrite existsb_exists. split.
  - intros [y [Hy E]]. apply eqb_eq in E. now subst.
  - intros H. exists x. split; [exact H | now apply eqb_eq].
Qed.

Lemma setAdd_In (xs seen : list A) (x : A) :
  In x (setAdd eqb seen xs) <-> In x seen \/ In x xs.
Proof.
  revert seen. induction xs as [|y xs IH]; intros seen; simpl; [tauto|].
  destruct (existsb (eqb y) seen) eqn:E; rewrite IH.
  - apply existsb_eqb in E. split; [tauto|]. intros [H | [<- | H]]; auto.
  - rewrite in_app_iff. simpl. tauto.
Qed.

Lemma setAdd_NoDup (xs seen : list A) : NoDup seen -> NoDup (setAdd eqb seen xs).
Proof.
  revert seen. induction xs as [|y xs IH]; intros seen H; simpl; [exact H|].
  destruct (existsb (eqb y) seen) eqn:E; apply IH; [exact H|].
  apply NoDup_app. split; [exact H|]. split; [|apply NoDup_singleton].
  intros z Hz Hz'. apply list_elem_of_singleton in Hz'. subst z.
  apply list_elem_of_In, existsb_eqb in Hz. congruence.
Qed.

End SetValues.

Section FilterChoices.

Lemma NoDup_List_filter {A} (f : A -> bool) (l : list A) :
  NoDup l -> NoDup (List.filter f l).
Proof.
  induction 1 as [|x l Hx Hl IH]; simpl; [constructor|].
  destruct (f x); [|exact IH]. constructor; [|exact IH].
  intros H. apply Hx. apply list_elem_of_In, filter_In in H as [H _].
  now apply list_elem_of_In.
Qed.

Lemma nonNull_In (l : list (option string)) (s : string) :
  In s (nonNull l) <-> In (Some s) l.
Proof.
  induction l as [|[t|] l IH]; simpl; [tauto| |].
  - rewrite IH. split; intros [H | H]; auto; left; congruence.
  - rewrite IH. split; [auto|]. intros [H | H]; [discriminate | exact H].
Qed.

Lemma nonNull_NoDup (l : list (option string)) : NoDup l -> NoDup (nonNull l).
Proof.
  induction 1 as [|[t|] l Hx Hl IH]; simpl; [constructor| |exact IH].
  constructor; [|exact IH]. intros H. apply Hx.
  now apply list_elem_of_In, nonNull_In, list_elem_of_In in H.
Qed.

Lemma sameCategory_eq (x y : option string) : sameCategory x y = true <-> x = y.
Proof.
  destruct x as [s|], y as [t|]; simpl; try (split; congruence).
  rewrite String.eqb_eq. split; congruence.
Qed.

Lemma code_inj (x y : ascii) : Js.code x = Js.code y -> x = y.
Proof.
  unfold Js.code. intros H. apply (f_equal ascii_of_N) in H.
  now rewrite !ascii_N_embedding in H.
Qed.

Lemma strLt_total (a b : string) :
  Js.strLt a b = false -> Js.strLt b a = false -> a = b.
Proof.
  revert b. induction a as [|x a IH]; intros [|y b]; simpl; try congruence.
  rewrite !orb_false_iff, !andb_false_iff, !N.ltb_ge, !N.eqb_neq.
  intros [H1 H1'] [H2 H2'].
  assert (Js.code x = Js.code y) as E by lia.
  rewrite (code_inj _ _ E). f_equal. apply IH; [destruct H1' | destruct H2']; congruence.
Qed.

(** Distinct strings in the order of the contract are in strictly
    increasing order. *)
Lemma sorted_strings_strict (l : list string) :
  NoDup l -> StronglySorted (fun x y => Js.strLt y x = false) l ->
  StronglySorted (fun x y => Js.strLt x y = true) l.
Proof.
  intros Hn. apply StronglySorted_weaken; [exact Hn|].
  intros x y _ _ Hne H. destruct (Js.strLt x y) eqn:E; [reflexivity|].
  destruct Hne. now apply strLt_total.
Qed.

Lemma insertString_perm (x : string) (l : list string) :
  Permutation (x :: l) (insertString x l).
Proof.
  induction l as [|y l IH]; simpl; [reflexivity|].
  destruct (Js.strLt y x); [|reflexivity].
  rewrite perm_swap. now apply perm_skip.
Qed.

Lemma insertString_sorted (x : string) (l : list string) :
  StronglySorted (fun a b => Js.strLt b a = false) l ->
  StronglySorted (fun a b => Js.strLt b a = false) (insertString x l).
Proof.
  induction 1 as [|y l Hl IH Hy]; simpl; [repeat constructor|].
  destruct (Js.strLt y x) eqn:E.
  - constructor; [exact IH|]. rewrite Forall_forall in *. intros z Hz.
    rewrite <- insertString_perm in Hz. apply elem_of_cons in Hz as [-> | Hz].
    + now apply strLt_asym.
    + now apply Hy.
  - constructor; [now constructor|]. constructor; [exact E|].
    rewrite Forall_forall in *. intros z Hz. specialize (Hy z Hz).
    destruct (Js.strLt z x) eqn:Ez; [|reflexivity].
    destruct (Js.strLt x y) eqn:Exy.
    + now rewrite (strLt_trans _ _ _ Ez Exy) in Hy.
    + rewrite (strLt_total _ _ Exy E) in Ez. congruence.
Qed.

Lemma sortStrings_contract : defaultSortContract sortStrings.
Proof.
  intros l. induction l as [|x l [IHp IHs]]; simpl; [split; constructor|]. split.
  - rewrite <- insertString_perm. now apply perm_skip.
  - now apply insertString_sorted.
Qed.

Variable defaultSort : list string -> list string.
Hypothesis defaultSort_contract : defaultSortContract defaultSort.

(** X4.  The bars offered in the bar filter are in strictly increasing
    order, so none is offered twice; the empty bar is not offered; and a
    bar is offered exactly when it is the bar of some beer. *)
Theorem barOptions_sorted_distinct (a : App) :
  StronglySorted (fun x y => Js.strLt x y = true) (barOptions defaultSort a) /\
  (forall s,
      In s (barOptions defaultSort a) <->
      s <> EmptyString /\ exists b, In b (beers a) /\ bar b = s).
Proof.
  unfold barOptions.
  set (u := List.filter Js.truthy (spreadSet String.eqb (List.map bar (beers a)))).
  destruct (defaultSort_contract u) as [Hp Hs].
  assert (NoDup u) as Hn.
  { apply NoDup_List_filter, (setAdd_NoDup _ String.eqb_eq). constructor. }
  split.
  - apply sorted_strings_strict; [now rewrite <- Hp | exact Hs].
  - intros s. rewrite <- (Permutation_in' eq_refl Hp). unfold u, spreadSet.
    rewrite filter_In, (setAdd_In _ String.eqb_eq), in_map_iff, truthy_eqb,
      negb_true_iff, String.eqb_neq.
    simpl. split.
    + intros [[[] | [b [E Hb]]] Hne]. split; [exact Hne | now exists b].
    + intros [Hne [b [Hb E]]]. split; [right; now exists b | exact Hne].
Qed.

(** X5.  The styles offered in the style filter are in strictly
    increasing order, so none is offered twice; each is a category of the
    table; and a category is offered exactly when some beer is classified
    under it, so that unclassified beers add no choice. *)
Theorem styleOptions_sorted_distinct (a : App) :
  StronglySorted (fun x y => Js.strLt x y = true) (styleOptions defaultSort a) /\
  (forall c,
      In c (styleOptions defaultSort a) <->
      exists b, In b (beers a) /\ extractCleanBeerStyle (style b) = Some c) /\
  (forall c, In c (styleOptions defaultSort a) -> In c (List.map category coreTypes)).
Proof.
  unfold styleOptions.
  set (u := nonNull (spreadSet sameCategory
                       (List.map (fun b => extractCleanBeerStyle (style b)) (beers a)))).
  destruct (defaultSort_contract u) as [Hp Hs].
  assert (NoDup u) as Hn.
  { apply nonNull_NoDup, (setAdd_NoDup _ sameCategory_eq). constructor. }
  assert (forall c, In c (defaultSort u) <->
            exists b, In b (beers a) /\ extractCleanBeerStyle (style b) = Some c) as Hin.
  { intros c. rewrite <- (Permutation_in' eq_refl Hp). unfold u, spreadSet.
    rewrite nonNull_In, (setAdd_In _ sameCategory_eq), in_map_iff. simpl. split.
    - intros [[] | [b [E Hb]]]. now exists b.
    - intros [b [Hb E]]. right. now exists b. }
  split; [|split].
  - apply sorted_strings_strict; [now rewrite <- Hp | exact Hs].
  - exact Hin.
  - intros c Hc. apply Hin in Hc as [b [_ Hb]].
    now apply findCoreType_category in Hb.
Qed.

End FilterChoices.

Lemma barOptions_sorted_distinct_witness :
  barOptions sortStrings barBeers = ["Goods"; "Shed"] /\
  StronglySorted (fun x y => Js.strLt x y = true) (barOptions sortStrings barBeers).
Proof.
  split; [reflexivity|].
  exact (proj1 (barOptions_sorted_distinct sortStrings sortStrings_contract barBeers)).
Defined.

Lemma styleOptions_sorted_distinct_witness :
  styleOptions sortStrings barBeers = ["Golden Ale"; "IPA"] /\
  StronglySorted (fun x y => Js.strLt x y = true) (styleOptions sortStrings barBeers).
Proof.
  split; [reflexivity|].
  exact (proj1 (styleOptions_sorted_distinct sortStrings sortStrings_contract barBeers)).
Defined.

(** ** The filter and the controls *)

Section FilterChoicesApplied.

Lemma includes_refl (s : string) : Js.includes s s = true.
Proof. apply includes_spec. exists EmptyString, EmptyString. now rewrite append_nil_r. Qed.


Lemma filterRecords_throws (a : App) (el : Elements) (records : list BeerEntry) (b : BeerEntry) :
  In b records -> styleFilter el <> EmptyString -> extractCleanBeerStyle (style b) = None ->
  exists e, filterRecords a el records = Throw e.
Proof.
  intros Hin Hsel Hb. destruct (filterRecords a el records) as [l|e] eqn:E; [|now exists e].
  apply filterRecords_Normal in E as [HF _]. rewrite Forall_forall in HF.
  destruct (HF b (proj2 (list_elem_of_In _ _) Hin)) as [H | H]; contradiction.
Qed.

Lemma passes_meetsChoices (a : App) (el : Elements) (b : BeerEntry) :
  passes a el b = true -> meetsChoices a el b.
Proof.
  unfold passes, meetsChoices, matchesBar, matchesAvailability.
  rewrite !andb_true_iff, truthy_eqb, negb_involutive.
  intros [[[[_ Hbar] _] Hav] _]. split; [|split].
  - intros Hne. apply orb_true_iff in Hbar as [H | H].
    + apply String.eqb_eq in H. contradiction.
    + now apply String.eqb_eq.
  - intros E. rewrite E in Hav. simpl in Hav. now rewrite orb_false_r in Hav.
  - intros E. rewrite E in Hav. simpl in Hav. now apply negb_true_iff.
Qed.

Lemma passes_unknown_availability (a : App) (el : Elements) (b : BeerEntry) :
  availabilityFilter el <> EmptyString -> availabilityFilter el <> "available" ->
  availabilityFilter el <> "unavailable" -> passes a el b = false.
Proof.
  intros H1 H2 H3. unfold passes, matchesAvailability.
  rewrite truthy_eqb, negb_involutive.
  apply String.eqb_neq in H1, H2, H3. rewrite H1, H2, H3. simpl.
  now rewrite andb_false_r.
Qed.

(** X7.  What [filterBeers] shows meets the choices made: with a bar
    chosen every shown beer has that bar, with "available" chosen every
    shown beer is available and the count of available beers is the count
    shown, with "unavailable" chosen none is available and that count is 0;
    any other value of the availability control than these two and the
    empty one shows nothing. *)
Theorem filterBeers_meets_choices (a a' : App) (el : Elements) :
  filterBeers a el = (a', Normal tt) ->
  Forall (meetsChoices a el) (filteredBeers a') /\
  (availabilityFilter el = "available" ->
   availableCount a' = length (filteredBeers a')) /\
  (availabilityFilter el = "unavailable" -> availableCount a' = 0%nat) /\
  (availabilityFilter el <> EmptyString -> availabilityFilter el <> "available" ->
   availabilityFilter el <> "unavailable" -> filteredBeers a' = []).
Proof.
  intros H. unfold filterBeers in H.
  destruct (filterRecords a el (beers a)) as [l|e] eqn:E; [|discriminate].
  injection H as <-. apply filterRecords_Normal in E as [_ ->]. simpl filteredBeers.
  assert (Forall (meetsChoices a el) (List.filter (passes a el) (beers a))) as HF.
  { apply Forall_forall. intros b Hb. apply list_elem_of_In, filter_In in Hb as [_ Hb].
    now apply passes_meetsChoices. }
  split; [exact HF|]. unfold availableCount. simpl.
  change (getBeerAvailability (setFilteredBeers a (List.filter (passes a el) (beers a))))
    with (getBeerAvailability a).
  split; [|split].
  - intros Hav. f_equal. apply forallb_filter_id, forallb_forall. intros b Hb.
    rewrite Forall_forall in HF. now apply (HF b (proj2 (list_elem_of_In _ _) Hb)).
  - intros Hav. rewrite (proj2 (filter_nil_iff _ _)); [reflexivity|].
    intros b Hb. rewrite Forall_forall in HF.
    now apply (HF b (proj2 (list_elem_of_In _ _) Hb)).
  - intros H1 H2 H3. apply filter_nil_iff. intros b _.
    now apply passes_unknown_availability.
Qed.


End FilterChoicesApplied.

Lemma filterBeers_meets_choices_witness :
  filterBeers twoBeers (availabilityControls "available") =
    (setFilteredBeers twoBeers [golden], Normal tt) /\
  availableCount (setFilteredBeers twoBeers [golden]) = 1%nat.
Proof.
  assert (filterBeers twoBeers (availabilityControls "available") =
            (setFilteredBeers twoBeers [golden], Normal tt)) as H
    by (vm_compute; reflexivity).
  split; [exact H|].
  exact (proj1 (proj2 (filterBeers_meets_choices _ _ _ H)) eq_refl).
Defined.


Section StyleChoice.

Variable defaultSort : list string -> list string.
Hypothesis defaultSort_contract : defaultSortContract defaultSort.

Lemma styleOptions_In (a : App) (c : string) :
  In c (styleOptions defaultSort a) <->
  exists b, In b (beers a) /\ extractCleanBeerStyle (style b) = Some c.
Proof.
  unfold styleOptions.
  destruct (defaultSort_contract
              (nonNull (spreadSet sameCategory
                 (List.map (fun b => extractCleanBeerStyle (style b)) (beers a)))))
    as [Hp _].
  rewrite <- (Permutation_in' eq_refl Hp). unfold spreadSet.
  rewrite nonNull_In, (setAdd_In _ sameCategory_eq), in_map_iff. simpl. split.
  - intros [[] | [b [E Hb]]]. now exists b.
  - intros [b [Hb E]]. right. now exists b.
Qed.

(** X6.  Choosing a style that is offered: some beer is classified under
    it, and the style clause holds of every beer classified under it.  The
    filter returns when every beer is classified; when some beer is
    unclassified it throws for every offered style. *)
Theorem offered_style_chosen (a : App) (el : Elements) :
  In (styleFilter el) (styleOptions defaultSort a) ->
  (exists b, In b (beers a) /\ extractCleanBeerStyle (style b) = Some (styleFilter el)) /\
  (forall b,
      extractCleanBeerStyle (style b) = Some (styleFilter el) ->
      styleClause (styleFilter el) b = true) /\
  (Forall (fun b => extractCleanBeerStyle (style b) <> None) (beers a) ->
   filterRecords a el (beers a) = Normal (List.filter (passes a el) (beers a))) /\
  (forall b,
      In b (beers a) -> extractCleanBeerStyle (style b) = None ->
      exists e, filterBeers a el = (a, Throw e)).
Proof.
  intros Hoff. pose proof (proj1 (styleOptions_In a _) Hoff) as Hex.
  split; [exact Hex|]. split; [|split].
  - intros b Hb. unfold styleClause. now rewrite Hb, includes_refl, orb_true_r.
  - intros HF. apply filterRecords_Normal. split; [|reflexivity].
    eapply Forall_impl; [exact HF|]. intros b Hb. now right.
  - intros b Hin Hb.
    assert (styleFilter el <> EmptyString) as Hne.
    { destruct Hex as [b' [_ Hb']]. intros E. rewrite E in Hb'.
      apply findCoreType_category in Hb'. simpl in Hb'.
      repeat (destruct Hb' as [Hb' | Hb']; [discriminate|]). exact Hb'. }
    destruct (filterRecords_throws a el (beers a) b Hin Hne Hb) as [e He].
    exists e. unfold filterBeers. now rewrite He.
Qed.

End StyleChoice.

Lemma offered_style_chosen_witness :
  In "IPA" (styleOptions sortStrings barBeers) /\
  exists e, filterBeers barBeers (controls "IPA" (Js.ofZ 0) (Js.ofZ 20)) = (barBeers, Throw e).
Proof.
  assert (In "IPA" (styleOptions sortStrings barBeers)) as H by (right; left; reflexivity).
  split; [exact H|].
  refine (proj2 (proj2 (proj2
            (offered_style_chosen sortStrings sortStrings_contract barBeers
               (controls "IPA" (Js.ofZ 0) (Js.ofZ 20)) H))) oddBeer _ eq_refl).
  right. right. left. reflexivity.
Defined.

(** ** Sorting with ties, and filtering after sorting *)

Section SortThenFilter.

Variable hostSort : Comparator -> list BeerEntry -> Completion (list BeerEntry).

(** X8.  [filterBeers] filters the extracted records, not the records
    shown: after a sort, a filter that returns shows the passing records in
    the order of extraction again, while the sort state still names the
    column and direction of the sort. *)
Theorem filterBeers_after_sort (a a2 : App) (col : string) (el : Elements) :
  filterBeers (fst (sortTable hostSort a col)) el = (a2, Normal tt) ->
  filteredBeers a2 = List.filter (passes a el) (beers a) /\
  currentSort a2 = nextSort (currentSort a) col /\
  beers a2 = beers a.
Proof.
  unfold sortTable. cbv zeta.
  destruct (hostSort _ _) as [sorted|e]; cbn [fst]; unfold filterBeers;
    cbn [beers setFilteredBeers setCurrentSort].
  - destruct (filterRecords _ el (beers a)) as [l|e] eqn:E; [|discriminate].
    intros [= <-]. apply filterRecords_Normal in E as [_ ->]. repeat split.
  - destruct (filterRecords _ el (beers a)) as [l|e'] eqn:E; [|discriminate].
    intros [= <-]. apply filterRecords_Normal in E as [_ ->]. repeat split.
Qed.

End SortThenFilter.

Lemma filterBeers_after_sort_witness :
  filteredBeers (fst (sortTable insertionSort threeBeers "abv")) = List.map abvBeer [3; 4; 5] /\
  filteredBeers
    (fst (filterBeers (fst (sortTable insertionSort threeBeers "abv"))
            (availabilityControls EmptyString))) = List.map abvBeer [5; 3; 4].
Proof.
  split; [reflexivity|].
  assert (filterBeers (fst (sortTable insertionSort threeBeers "abv"))
            (availabilityControls EmptyString) =
          (setFilteredBeers (fst (sortTable insertionSort threeBeers "abv"))
             (List.map abvBeer [5; 3; 4]), Normal tt)) as H by (vm_compute; reflexivity).
  rewrite H.
  exact (proj1 (filterBeers_after_sort insertionSort threeBeers _ "abv" _ H)).
Defined.

Section NumberEquality.

Ltac order_cases :=
  repeat match goal with
         | |- context [(?a ?= ?b)%Z] => destruct (Z.compare_spec a b)
         | |- context [Pos.compare_cont Eq ?a ?b] =>
             change (Pos.compare_cont Eq a b) with (Pos.compare a b);
             destruct (Pos.compare_spec a b)
         end;
  simpl; try congruence; try lia.

Lemma SFcompare_Eq_trans (x y z : Js.number) :
  SFcompare x y = Some Eq -> SFcompare y z = Some Eq -> SFcompare x z = Some Eq.
Proof.
  destruct x as [sx|sx| |sx mx ex], y as [sy|sy| |sy my ey], z as [sz|sz| |sz mz ez];
    simpl; try congruence;
    try (destruct sx; simpl; congruence);
    try (destruct sy; simpl; congruence);
    try (destruct sz; simpl; congruence);
    try (destruct sx, sy; simpl; congruence);
    try (destruct sy, sz; simpl; congruence);
    try (destruct sx, sz; simpl; congruence);
    try (destruct sx, sy, sz; simpl; congruence).
  all: destruct sx, sy, sz; simpl; try congruence; order_cases.
Qed.

Lemma notNaN_compare (x y : Js.number) :
  notNaN x = true -> notNaN y = true -> exists c, SFcompare x y = Some c.
Proof.
  destruct x as [sx|sx| |sx mx ex], y as [sy|sy| |sy my ey]; simpl;
    try discriminate; intros _ _; eexists; reflexivity.
Qed.

(** Two numbers other than NaN neither of which is less than the other
    compare equal. *)
Lemma lt_neither_Eq (x y : Js.number) :
  notNaN x = true -> notNaN y = true ->
  (Js.lt x y = false /\ Js.lt y x = false <-> SFcompare x y = Some Eq).
Proof.
  intros Hx Hy. destruct (notNaN_compare x y Hx Hy) as [c Hc].
  unfold Js.lt, SFltb. rewrite (SFcompare_antisym x y), Hc.
  destruct c; simpl; split; try tauto; try congruence; intros [? ?]; congruence.
Qed.

End NumberEquality.

Section ConsistentKeys.

Variable k : BeerEntry -> SortKey.
Hypothesis keys_comparable : comparableKeys k.

Lemma keys_tie_trans (x y z : BeerEntry) :
  threeWay keyLt (k x) (k y) = 0 -> threeWay keyLt (k y) (k z) = 0 ->
  threeWay keyLt (k x) (k z) = 0.
Proof.
  assert (forall u v, threeWay keyLt u v = 0 <-> keyLt u v = false /\ keyLt v u = false)
    as Htie.
  { intros u v. unfold threeWay. destruct (keyLt u v), (keyLt v u); split;
      try tauto; try discriminate; intros [? ?]; discriminate. }
  rewrite !Htie. destruct keys_comparable as [Hs | Hn].
  - destruct (Hs x) as [sx ->], (Hs y) as [sy ->], (Hs z) as [sz ->]. simpl.
    intros [H1 H2] [H3 H4].
    rewrite (strLt_total _ _ H1 H2), (strLt_total _ _ H3 H4).
    now rewrite strLt_irrefl.
  - destruct (Hn x) as [nx [-> Hx]], (Hn y) as [ny [-> Hy]], (Hn z) as [nz [-> Hz]].
    simpl. rewrite !lt_neither_Eq by assumption. apply SFcompare_Eq_trans.
Qed.

Variable cmp : Comparator.
Variable d : Direction.
Hypothesis cmp_value :
  forall x y, cmp x y = Normal (directed d (threeWay keyLt (k x) (k y))).

Lemma cmpEq_tie (x y : BeerEntry) : cmpEq cmp x y <-> threeWay keyLt (k x) (k y) = 0.
Proof.
  unfold cmpEq. rewrite cmp_value. destruct d; simpl; split.
  - intros [= H]. exact H.
  - intros ->. reflexivity.
  - intros [= H]. lia.
  - intros ->. reflexivity.
Qed.

(** The comparator of [sortTable] is consistent on every array, ties or
    not, when the keys are comparable. *)
Lemma cmp_consistent_with_ties (l : list BeerEntry) : consistentOn cmp l.
Proof.
  constructor.
  - intros x y _ _. rewrite cmp_value. now eexists.
  - intros x _. apply cmpEq_tie, threeWay_refl.
  - intros x y _ _. rewrite !cmpEq_tie, (threeWay_antisym (k x) (k y)). lia.
  - intros x y z _ _ _. rewrite !cmpEq_tie. apply keys_tie_trans.
  - intros x y z _ _ _. rewrite !(cmpLt_before k cmp d cmp_value). apply before_trans.
  - intros x y z _ _ _. rewrite !(cmpGt_before k cmp d cmp_value). intros H1 H2.
    exact (before_trans k d _ _ _ H2 H1).
Qed.

Lemma notAfter_inOrder (x y : BeerEntry) : ~ cmpLt cmp y x <-> inOrder k d x y.
Proof.
  rewrite (cmpLt_before k cmp d cmp_value). unfold before, inOrder.
  destruct d; (destruct (keyLt _ _); split; [congruence | tauto | tauto | congruence])
    || (destruct (keyLt _ _); split; congruence || tauto).
Qed.

End ConsistentKeys.

Section SortWithTies.

Lemma sortKeyOf_comparable (a : App) (col : string) : comparableKeys (sortKeyOf a col).
Proof.
  unfold comparableKeys, sortKeyOf.
  destruct (String.eqb col "abv").
  { right. intros x. eexists. split; [reflexivity|].
    unfold Js.orZero. destruct (abv x) as [s|s| |s m e]; reflexivity. }
  destruct (String.eqb col "last_seen").
  { right. intros x. eexists. split; [reflexivity|]. unfold lastSeen.
    destruct (getBeerAvailabilityInfo a x) as [i|]; [|reflexivity].
    destruct (is_available i); [apply ofZ_notNaN | reflexivity]. }
  left. intros x. destruct (stringField x col); now eexists.
Qed.

Variable hostSort : Comparator -> list BeerEntry -> Completion (list BeerEntry).
Hypothesis hostSort_contract : sortContract hostSort.

(** X9.  On a column with sort keys [sortTable] always returns, whatever
    the records and their ties: the records shown are permuted, and
    afterwards no record stands behind one with a larger key (ascending) or
    a smaller key (descending).  In an ascending sort by ABV no beer with
    an unparsed ABV (0) stands behind a beer with a positive ABV. *)
Theorem sortTable_orders_with_ties (a : App) (col : string) :
  sortable col = true ->
  exists sorted,
    sortTable hostSort a col =
      (setFilteredBeers (setCurrentSort a (nextSort (currentSort a) col)) sorted,
       Normal tt) /\
    Permutation (filteredBeers a) sorted /\
    StronglySorted
      (inOrder (sortKeyOf a col) (direction (nextSort (currentSort a) col))) sorted /\
    (col = "abv" -> direction (nextSort (currentSort a) col) = asc ->
     StronglySorted
       (fun x y => forall s, abv y = S754_zero s -> Js.lt Js.zero (abv x) = false)
       sorted).
Proof.
  intros Hcol. unfold sortTable. cbv zeta.
  set (a1 := setCurrentSort a (nextSort (currentSort a) col)).
  set (d := direction (currentSort a1)).
  assert (forall x y, sortComparator a1 col d x y =
            Normal (directed d (threeWay keyLt (sortKeyOf a col x) (sortKeyOf a col y))))
    as Hval by (intros x y; now rewrite sortComparator_sortable).
  destruct (hostSort_contract (sortComparator a1 col d) (filteredBeers a1))
    as [sorted [Hs [Hp Hsorted]]].
  { exact (cmp_consistent_with_ties _ (sortKeyOf_comparable a col) _ _ Hval _). }
  rewrite Hs. exists sorted. split; [reflexivity|]. split; [exact Hp|].
  assert (StronglySorted (inOrder (sortKeyOf a col) d) sorted) as Hord.
  { eapply StronglySorted_weaken_all; [|exact Hsorted].
    intros x y. apply (notAfter_inOrder _ _ _ Hval). }
  split; [exact Hord|].
  intros -> Hd. change (direction (nextSort (currentSort a) "abv")) with d in Hd.
  eapply StronglySorted_weaken_all; [|exact Hord].
  intros x y H s Hy. rewrite Hd in H. unfold inOrder, sortKeyOf in H. simpl in H.
  rewrite Hy in H. simpl in H.
  destruct (abv x) as [sx|sx| |sx mx ex]; try reflexivity; exact H.
Qed.

End SortWithTies.

Lemma sortTable_orders_with_ties_witness :
  sortable "abv" = true /\
  exists sorted,
    sortTable insertionSort tiedBeers "abv" =
      (setFilteredBeers (setCurrentSort tiedBeers (nextSort (currentSort tiedBeers) "abv"))
         sorted, Normal tt) /\
    Permutation (filteredBeers tiedBeers) sorted.
Proof.
  split; [reflexivity|].
  destruct (sortTable_orders_with_ties insertionSort insertionSort_contract
              tiedBeers "abv" eq_refl) as [sorted [H1 [H2 _]]].
  exists sorted. split; assumption.
Defined.

(** ** The availability overlay: loading, identity, failure, other beers *)

Section Overlay.

(** X10.  A load without a client or from a store that cannot be reached
    changes nothing.  A load from a store that answers replaces the map: an
    entry is held for exactly the keys of the rows, each with the values of
    the last row of that key, whatever the map held before; the records and
    the sort state are not touched. *)
Theorem loadBeerAvailability_replaces_map :
  (forall s a,
      supabase a = false \/ Store.reachable s = false -> loadBeerAvailability s a = a) /\
  (forall s a key,
      supabase a = true -> Store.reachable s = true ->
      beerAvailability (loadBeerAvailability s a) !! key =
      option_map infoOf
        (List.find (fun r => String.eqb (cacheKey r) key) (rev (Store.rows s)))) /\
  (forall s a a',
      supabase a = true -> supabase a' = true -> Store.reachable s = true ->
      beerAvailability (loadBeerAvailability s a) =
      beerAvailability (loadBeerAvailability s a')) /\
  (forall s a,
      beers (loadBeerAvailability s a) = beers a /\
      filteredBeers (loadBeerAvailability s a) = filteredBeers a /\
      currentSort (loadBeerAvailability s a) = currentSort a).
Proof.
  split; [|split; [|split]].
  - intros s a [H | H]; unfold loadBeerAvailability, Store.selectAll.
    + now rewrite H.
    + rewrite H. now destruct (supabase a).
  - intros s a key Ha Hs. unfold loadBeerAvailability, Store.selectAll.
    rewrite Ha, Hs. simpl. rewrite fold_setItem_lookup, lookup_empty.
    now destruct (List.find _ _).
  - intros s a a' Ha Ha' Hs. unfold loadBeerAvailability, Store.selectAll.
    now rewrite Ha, Ha', Hs.
  - intros s a. unfold loadBeerAvailability.
    destruct (supabase a); simpl; [|auto].
    destruct (Store.error (Store.selectAll s)); [auto|].
    destruct (Store.data (Store.selectAll s)); auto.
Qed.

Lemma loadBeerAvailability_replaces_map_witness :
  loadBeerAvailability (store offlineWorld) (app offlineWorld) = app offlineWorld /\
  beerAvailability twoBeers !! availabilityKey "Brewer B" "Hop" = None.
Proof.
  destruct loadBeerAvailability_replaces_map as (Hfail & Hget & _).
  split.
  - apply Hfail. right. reflexivity.
  - unfold twoBeers. rewrite Hget by reflexivity. reflexivity.
Defined.

(** X11.  [getUserId] gives an identifier that is not empty and stores
    it; from then on it gives the same identifier, whatever
    [Math.random] returns. *)
Theorem getUserId_stable (item : option string) (env env' : Env) :
  Js.truthy (fst (getUserId item env)) = true /\
  snd (getUserId item env) = Some (fst (getUserId item env)) /\
  getUserId (snd (getUserId item env)) env' = getUserId item env.
Proof.
  unfold getUserId. destruct item as [[|c u]|]; repeat split.
Qed.

(** X12.  Without a client a toggle changes nothing at all.  With a store
    that cannot be reached it changes neither the store nor the
    application state: the beer keeps the availability it showed. *)
Theorem toggleBeerAvailability_failure :
  (forall w x env, supabase (app w) = false -> toggleBeerAvailability w x env = w) /\
  (forall w x env,
      Store.reachable (store w) = false ->
      store (toggleBeerAvailability w x env) = store w /\
      app (toggleBeerAvailability w x env) = app w).
Proof.
  split.
  - intros w x env H. unfold toggleBeerAvailability. now rewrite H.
  - intros w x env H. unfold toggleBeerAvailability.
    destruct (supabase (app w)); simpl; [|auto].
    unfold Store.selectSingle, Store.insert. rewrite H. simpl.
    destruct (getUserId (userIdItem w) env) as [userId item]. simpl. auto.
Qed.

Lemma toggleBeerAvailability_failure_witness :
  store (toggleBeerAvailability offlineWorld golden at1000) = store offlineWorld /\
  app (toggleBeerAvailability offlineWorld golden at1000) = app offlineWorld.
Proof.
  apply (proj2 toggleBeerAvailability_failure). reflexivity.
Defined.

Lemma find_snoc {A} (f : A -> bool) (l : list A) (x : A) :
  List.find f (l ++ [x])%list =
  match List.find f l with
  | Some y => Some y
  | None => if f x then Some x else None
  end.
Proof.
  induction l as [|y l IH]; simpl; [reflexivity|]. now destruct (f y).
Qed.

Lemma find_updated_other (b n b' n' : string) (st : bool) (u : string) (t : Z)
    (l : list Store.Item) :
  (b', n') <> (b, n) ->
  List.find (Store.hasKey b' n') (List.map (updated b n st u t) l) =
  List.find (Store.hasKey b' n') l.
Proof.
  intros Hne. induction l as [|r l IH]; simpl; [reflexivity|].
  rewrite hasKey_updated. destruct (Store.hasKey b' n' r) eqn:E; [|exact IH].
  unfold updated. destruct (Store.hasKey b n r) eqn:E'; [|reflexivity].
  apply hasKey_spec in E, E'. congruence.
Qed.

Lemma toggledStore_find_other (s : Store.t) (b n b' n' u : string) (t : Z) :
  (b', n') <> (b, n) ->
  List.find (Store.hasKey b' n') (Store.rows (toggledStore s b n u t)) =
  List.find (Store.hasKey b' n') (Store.rows s).
Proof.
  intros Hne. unfold toggledStore.
  destruct (List.filter (Store.hasKey b n) (Store.rows s)) as [|r [|r' l]]; simpl.
  - rewrite find_snoc. destruct (List.find _ (Store.rows s)); [reflexivity|].
    destruct (Store.hasKey b' n' _) eqn:E; [|reflexivity].
    apply hasKey_spec in E. unfold keyOf in E. simpl in E. congruence.
  - now apply find_updated_other.
  - reflexivity.
Qed.

Lemma toggledStore_length (s : Store.t) (b n u : string) (t : Z) :
  (length (Store.rows s) <= length (Store.rows (toggledStore s b n u t)) <=
   S (length (Store.rows s)))%nat.
Proof.
  unfold toggledStore.
  destruct (List.filter (Store.hasKey b n) (Store.rows s)) as [|r [|r' l]]; simpl.
  - rewrite length_app. simpl. lia.
  - rewrite length_map. lia.
  - lia.
Qed.

(** X13.  A successful toggle touches one beer only: for every other
    (brewery, name) the store holds the same availability and the same time
    as before.  The table stays keyed, no row is removed and at most one is
    added. *)
Theorem toggleBeerAvailability_other_beers (w : World) (x : BeerEntry) (env : Env)
    (b n : string) :
  supabase (app w) = true -> Store.reachable (store w) = true -> Store.keyed (store w) ->
  (b, n) <> (brewery x, beer x) ->
  Store.status (store (toggleBeerAvailability w x env)) b n = Store.status (store w) b n /\
  Store.stamp (store (toggleBeerAvailability w x env)) b n = Store.stamp (store w) b n /\
  Store.keyed (store (toggleBeerAvailability w x env)) /\
  (length (Store.rows (store w)) <=
   length (Store.rows (store (toggleBeerAvailability w x env))) <=
   S (length (Store.rows (store w))))%nat.
Proof.
  intros Hc Hr Hk Hne. rewrite (toggle_succeeds w x env Hc Hr Hk). cbv zeta. cbn [store].
  unfold Store.status, Store.stamp.
  rewrite (toggledStore_find_other _ _ _ _ _ _ _ Hne).
  repeat split; try reflexivity.
  - now apply toggledStore_keyed.
  - apply toggledStore_length.
  - apply toggledStore_length.
Qed.

Lemma toggleBeerAvailability_other_beers_witness :
  Store.status
    (store (toggleBeerAvailability (toggleBeerAvailability emptyWorld golden at1000)
              (named "Brewer B" "Hop") at2000)) "Brewer A" "Golden" = true /\
  Store.stamp
    (store (toggleBeerAvailability (toggleBeerAvailability emptyWorld golden at1000)
              (named "Brewer B" "Hop") at2000)) "Brewer A" "Golden" = Some 1000.
Proof.
  assert (Store.keyed (store (toggleBeerAvailability emptyWorld golden at1000))) as Hk.
  { apply NoDup_singleton. }
  assert (("Brewer A", "Golden") <> (brewery (named "Brewer B" "Hop"), beer (named "Brewer B" "Hop")))
    as Hne by discriminate.
  destruct (toggleBeerAvailability_other_beers
              (toggleBeerAvailability emptyWorld golden at1000)
              (named "Brewer B" "Hop") at2000 "Brewer A" "Golden"
              eq_refl eq_refl Hk Hne) as (H1 & H2 & _).
  split; [exact H1 | exact H2].
Defined.

End Overlay.

(** ** The cell "last seen" *)

Section LastSeen.

Variable toLocaleDateString : Z -> string.

(** X14.  The text of [formatTimeAgo] by the age in milliseconds: below
    one minute (a time in the future included) "just now"; then whole
    minutes 1..59, whole hours 1..23 and whole days 1..6, each the floor of
    the age in that unit; from seven days on the date of the host.  The
    text is never "0m ago", "0h ago" or "0d ago". *)
Theorem formatTimeAgo_bands (nowMs thenMs : Z) :
  (nowMs - thenMs < 60000 ->
   formatTimeAgo toLocaleDateString nowMs (Some thenMs) = "just now") /\
  (60000 <= nowMs - thenMs < 3600000 ->
   formatTimeAgo toLocaleDateString nowMs (Some thenMs) =
     decimal ((nowMs - thenMs) / 60000) +:+ "m ago" /\
   1 <= (nowMs - thenMs) / 60000 <= 59) /\
  (3600000 <= nowMs - thenMs < 86400000 ->
   formatTimeAgo toLocaleDateString nowMs (Some thenMs) =
     decimal ((nowMs - thenMs) / 3600000) +:+ "h ago" /\
   1 <= (nowMs - thenMs) / 3600000 <= 23) /\
  (86400000 <= nowMs - thenMs < 604800000 ->
   formatTimeAgo toLocaleDateString nowMs (Some thenMs) =
     decimal ((nowMs - thenMs) / 86400000) +:+ "d ago" /\
   1 <= (nowMs - thenMs) / 86400000 <= 6) /\
  (604800000 <= nowMs - thenMs ->
   formatTimeAgo toLocaleDateString nowMs (Some thenMs) = toLocaleDateString thenMs).
Proof.
  unfold formatTimeAgo. cbv zeta.
  set (d := nowMs - thenMs).
  assert (d / 60000 / 60 = d / 3600000) as Eh by (rewrite Z.div_div by lia; reflexivity).
  assert (d / 60000 / 60 / 24 = d / 86400000) as Ed
    by (rewrite Eh, Z.div_div by lia; reflexivity).
  rewrite Ed, Eh.
  pose proof (Z.div_lt_upper_bound d 60000 1) as M1.
  pose proof (Z.div_le_lower_bound d 60000 1) as M2.
  pose proof (Z.div_lt_upper_bound d 60000 60) as M3.
  pose proof (Z.div_le_lower_bound d 60000 60) as M4.
  pose proof (Z.div_lt_upper_bound d 3600000 24) as H1.
  pose proof (Z.div_le_lower_bound d 3600000 24) as H2.
  pose proof (Z.div_le_lower_bound d 3600000 1) as H3.
  pose proof (Z.div_lt_upper_bound d 86400000 7) as D1.
  pose proof (Z.div_le_lower_bound d 86400000 7) as D2.
  pose proof (Z.div_le_lower_bound d 86400000 1) as D3.
  repeat split; intros; repeat (case Z.ltb_spec; intros); try reflexivity; try lia.
Qed.

Lemma lastSeenText_loaded (s : Store.t) (a : App) (x : BeerEntry) (nowMs : Z) :
  supabase a = true -> Store.reachable s = true ->
  Store.keyed s -> collisionFree s (brewery x) (beer x) ->
  lastSeenText toLocaleDateString (loadBeerAvailability s a) nowMs x =
  if Store.status s (brewery x) (beer x)
  then formatTimeAgo toLocaleDateString nowMs (Store.stamp s (brewery x) (beer x))
  else "Never".
Proof.
  intros Ha Hr Hk Hc. unfold loadBeerAvailability, Store.selectAll.
  rewrite Ha, Hr. simpl. unfold lastSeenText, getBeerAvailabilityInfo. simpl.
  rewrite (cache_lookup s _ _ Hk Hc). unfold Store.status, Store.stamp.
  destruct (List.find (Store.hasKey (brewery x) (beer x)) (Store.rows s)); reflexivity.
Qed.

(** X15.  What the table shows after a successful toggle, when no other
    row shares the beer's key in the map: a beer that has just been marked
    available shows the age of that toggle, "just now" during the first
    minute; a beer that has just been marked unavailable shows "Never",
    and the time of the toggle is not shown. *)
Theorem lastSeenText_after_toggle (w : World) (x : BeerEntry) (env : Env) (nowMs : Z) :
  supabase (app w) = true -> Store.reachable (store w) = true -> Store.keyed (store w) ->
  collisionFree (store w) (brewery x) (beer x) ->
  lastSeenText toLocaleDateString (app (toggleBeerAvailability w x env)) nowMs x =
    (if Store.status (store w) (brewery x) (beer x)
     then "Never"
     else formatTimeAgo toLocaleDateString nowMs (Some (now env))) /\
  (Store.status (store w) (brewery x) (beer x) = false -> nowMs - now env < 60000 ->
   lastSeenText toLocaleDateString (app (toggleBeerAvailability w x env)) nowMs x =
     "just now").
Proof.
  intros Hc Hr Hk Hcf.
  assert (lastSeenText toLocaleDateString (app (toggleBeerAvailability w x env)) nowMs x =
          if Store.status (store w) (brewery x) (beer x)
          then "Never"
          else formatTimeAgo toLocaleDateString nowMs (Some (now env))) as E.
  { rewrite (toggle_succeeds w x env Hc Hr Hk). cbv zeta. cbn [app].
    generalize (fst (getUserId (userIdItem w) env)). intros u.
    destruct (toggledStore_status (store w) (brewery x) (beer x) u (now env) Hk) as [St Tm].
    rewrite lastSeenText_loaded.
    - rewrite St, Tm. now destruct (Store.status (store w) (brewery x) (beer x)).
    - exact Hc.
    - now apply toggledStore_reachable.
    - now apply toggledStore_keyed.
    - now apply toggledStore_collisionFree. }
  split; [exact E|].
  intros Hs Hage. rewrite E, Hs.
  unfold formatTimeAgo. cbv zeta.
  pose proof (Z.div_lt_upper_bound (nowMs - now env) 60000 1) as M1.
  case Z.ltb_spec; intros; [reflexivity | lia].
Qed.

End LastSeen.

Lemma formatTimeAgo_bands_witness :
  formatTimeAgo (fun _ => "1/1/1970") 7300000 (Some 100000) = "2h ago" /\
  formatTimeAgo (fun _ => "1/1/1970") 1000 (Some 2000) = "just now".
Proof.
  split.
  - destruct (formatTimeAgo_bands (fun _ => "1/1/1970") 7300000 100000) as (_ & _ & H & _).
    destruct H as [H _]; [lia|]. exact H.
  - destruct (formatTimeAgo_bands (fun _ => "1/1/1970") 1000 2000) as (H & _). apply H. lia.
Defined.

Lemma lastSeenText_after_toggle_witness :
  lastSeenText (fun _ => "1/1/1970")
    (app (toggleBeerAvailability emptyWorld golden at1000)) 2000 golden = "just now".
Proof.
  assert (collisionFree (store emptyWorld) (brewery golden) (beer golden)) as Hcf.
  { intros r []. }
  destruct (lastSeenText_after_toggle (fun _ => "1/1/1970") emptyWorld golden at1000 2000
              eq_refl eq_refl (NoDup_nil_2 : Store.keyed (store emptyWorld)) Hcf)
    as [_ H].
  apply H; [reflexivity | vm_compute; reflexivity].
Defined.

(** ** The toggle of the earlier revision *)

Section UpsertToggle.

Lemma find_update_self (b n : string) (st : bool) (u : string) (t : Z)
    (l : list Store.Item) :
  existsb (Store.hasKey b n) l = true ->
  exists r, List.find (Store.hasKey b n) (List.map (updated b n st u t) l) = Some r /\
            Store.is_available r = st /\ Store.updated_at r = t.
Proof.
  induction l as [|r l IH]; simpl; [discriminate|].
  rewrite hasKey_updated. destruct (Store.hasKey b n r) eqn:E; simpl.
  - intros _. eexists. split; [reflexivity|]. unfold updated. rewrite E. auto.
  - exact IH.
Qed.

Lemma existsb_false_find {A} (f : A -> bool) (l : list A) :
  existsb f l = false -> List.find f l = None.
Proof.
  induction l as [|y l IH]; simpl; [reflexivity|].
  destruct (f y); simpl; [discriminate | exact IH].
Qed.

Lemma upsert_writes (s : Store.t) (r : Store.Item) :
  Store.reachable s = true ->
  snd (Store.upsert s r) = None /\
  Store.reachable (fst (Store.upsert s r)) = true /\
  Store.status (fst (Store.upsert s r)) (Store.brewery r) (Store.beer_name r) =
    Store.is_available r /\
  Store.stamp (fst (Store.upsert s r)) (Store.brewery r) (Store.beer_name r) =
    Some (Store.updated_at r).
Proof.
  intros Hr. unfold Store.upsert, Store.update, Store.insert, Store.status, Store.stamp.
  rewrite Hr.
  destruct (existsb _ (Store.rows s)) eqn:E; simpl.
  - destruct (find_update_self _ _ (Store.is_available r) (Store.updated_by r)
                (Store.updated_at r) _ E) as (r' & F & A1 & A2).
    unfold updated in F. rewrite F. rewrite A1, A2. auto.
  - rewrite find_snoc, (existsb_false_find _ _ E).
    assert (Store.hasKey (Store.brewery r) (Store.beer_name r) r = true) as K
      by (now apply hasKey_spec).
    rewrite K. auto.
Qed.

(** X16.  The toggle of the earlier revision decides by the presence of
    an entry in the map, not by the availability the entry holds: with a
    client and a store that answers, it writes "unavailable" to the store
    and the map when the map has an entry for the beer, whatever the entry
    says, and "available" only when it has none.  Every toggle after the
    first therefore leaves the beer unavailable. *)
Theorem toggleBeerAvailability_upsert_by_presence (w : World) (x : BeerEntry)
    (env env' : Env) :
  supabase (app w) = true -> Store.reachable (store w) = true ->
  Store.status (store (toggleBeerAvailability_upsert w x env)) (brewery x) (beer x) =
    negb (bool_decide (is_Some (getBeerAvailabilityInfo (app w) x))) /\
  getBeerAvailability (app (toggleBeerAvailability_upsert w x env)) x =
    negb (bool_decide (is_Some (getBeerAvailabilityInfo (app w) x))) /\
  Store.stamp (store (toggleBeerAvailability_upsert w x env)) (brewery x) (beer x) =
    Some (now env) /\
  Store.status
    (store (toggleBeerAvailability_upsert (toggleBeerAvailability_upsert w x env) x env'))
    (brewery x) (beer x) = false /\
  getBeerAvailability
    (app (toggleBeerAvailability_upsert (toggleBeerAvailability_upsert w x env) x env')) x =
    false.
Proof.
  assert (forall w x env,
    supabase (app w) = true -> Store.reachable (store w) = true ->
    Store.status (store (toggleBeerAvailability_upsert w x env)) (brewery x) (beer x) =
      negb (bool_decide (is_Some (getBeerAvailabilityInfo (app w) x))) /\
    getBeerAvailability (app (toggleBeerAvailability_upsert w x env)) x =
      negb (bool_decide (is_Some (getBeerAvailabilityInfo (app w) x))) /\
    Store.stamp (store (toggleBeerAvailability_upsert w x env)) (brewery x) (beer x) =
      Some (now env) /\
    supabase (app (toggleBeerAvailability_upsert w x env)) = true /\
    Store.reachable (store (toggleBeerAvailability_upsert w x env)) = true /\
    is_Some (getBeerAvailabilityInfo (app (toggleBeerAvailability_upsert w x env)) x))
    as One.
  { clear. intros w x env Hc Hr. unfold toggleBeerAvailability_upsert.
    rewrite Hc. simpl negb. cbv iota. cbv zeta.
    destruct (getUserId (userIdItem w) env) as [userId item].
    set (st := negb match beerAvailability (app w) !! availabilityKey (brewery x) (beer x) with
                    | Some _ => true | None => false end).
    assert (st = negb (bool_decide (is_Some (getBeerAvailabilityInfo (app w) x)))) as Est.
    { unfold st, getBeerAvailabilityInfo. cbv zeta.
      destruct (beerAvailability (app w) !! _) as [i|].
      - now rewrite bool_decide_eq_true_2 by (now exists i).
      - rewrite bool_decide_eq_false_2; [reflexivity|]. intros [i Hi]. discriminate Hi. }
    rewrite <- Est.
    match goal with |- context [Store.upsert ?s ?r] =>
      destruct (upsert_writes s r Hr) as (E1 & E2 & E3 & E4);
      destruct (Store.upsert s r) as [store' error] end.
    simpl in E1, E2, E3, E4. subst error. cbn [store app].
    unfold getBeerAvailability, getBeerAvailabilityInfo. cbv zeta. simpl.
    rewrite lookup_insert_eq. simpl.
    repeat split; try assumption. now eexists. }
  intros Hc Hr.
  destruct (One w x env Hc Hr) as (S1 & G1 & T1 & Hc' & Hr' & Hin).
  destruct (One (toggleBeerAvailability_upsert w x env) x env' Hc' Hr')
    as (S2 & G2 & _).
  rewrite bool_decide_eq_true_2 in S2, G2 by exact Hin.
  repeat split; assumption.
Qed.

Lemma toggleBeerAvailability_upsert_by_presence_witness :
  getBeerAvailability
    (app (toggleBeerAvailability_upsert
            (toggleBeerAvailability_upsert emptyWorld golden at1000) golden at2000)) golden =
  false.
Proof.
  destruct (toggleBeerAvailability_upsert_by_presence emptyWorld golden at1000 at2000
              eq_refl eq_refl) as (_ & _ & _ & _ & H).
  exact H.
Defined.

End UpsertToggle.

(** ** The cell "ABV" *)

Section AbvCellProperties.

Variable numberToString : Js.number -> string.

Lemma percent_not_NA (s : string) : s +:+ "%" <> "N/A".
Proof.
  destruct s as [|a [|b [|c [|d s]]]]; rewrite ?append_cons, ?append_nil_l;
    intros H; congruence.
Qed.

Lemma nonNegative_not_positive (x : Js.number) :
  nonNegative x = true -> Js.gt x Js.zero = false -> x = Js.zero.
Proof.
  destruct x as [[]|[]| |[] m e]; simpl; intros H1 H2; try discriminate; reflexivity.
Qed.

(** X18.  The table shows "N/A" for the strength of an extracted record
    exactly when its ABV is zero, which is the case whenever the ABV text
    holds no digit; in every other case the cell ends with the per cent
    sign. *)
Theorem abvCell_not_available (cells : Row) :
  (abvCell numberToString (entryOf cells) = "N/A" <-> abv (entryOf cells) = Js.zero) /\
  (noDigits (Js.trim (textContent cells 3)) ->
   abvCell numberToString (entryOf cells) = "N/A") /\
  (abv (entryOf cells) <> Js.zero ->
   abvCell numberToString (entryOf cells) =
     numberToString (abv (entryOf cells)) +:+ "%").
Proof.
  pose proof (parseABV_nonNegative (Js.trim (textContent cells 3))) as Hn.
  assert (abvCell numberToString (entryOf cells) = "N/A" <-> abv (entryOf cells) = Js.zero)
    as Hiff.
  { unfold abvCell, entryOf. cbn [abv].
    destruct (Js.gt _ Js.zero) eqn:E.
    - split; intros H.
      + now apply percent_not_NA in H.
      + rewrite H in E. discriminate E.
    - split; intros _; [now apply nonNegative_not_positive | reflexivity]. }
  split; [exact Hiff|]. split.
  - intros Hd. apply Hiff. unfold entryOf. cbn [abv].
    unfold parseABV. now rewrite (matchNumber_none _ Hd).
  - intros Hne. unfold abvCell. destruct (Js.gt _ Js.zero) eqn:E; [reflexivity|].
    exfalso. apply Hne. unfold entryOf in *. cbn [abv] in *.
    now apply nonNegative_not_positive.
Qed.

End AbvCellProperties.

(** ** Loading the page *)

Section Loading.

(** X19.  The loader ends in exactly one of two states, and always hides
    the loading notice: it shows the error and leaves the records and the
    table as they were exactly when the fetch failed or the document has no
    row of beer data; otherwise it shows the table with the records of the
    qualifying rows.  [init] loads the availability in both cases, as a
    load on the state the loader left. *)
Theorem loadFreshBeerData_error_or_table (w : World) (v : View) (r : FetchOutcome) :
  loadingHidden (snd (loadFreshBeerData (app w) v r)) = true /\
  (noBeerData r ->
   loadFreshBeerData (app w) v r = (app w, showError v)) /\
  (forall rows,
      r = responseOk rows -> List.filter qualifies rows <> [] ->
      loadFreshBeerData (app w) v r =
        (setBeers (app w) (List.map entryOf (List.filter qualifies rows)), hideLoading v)) /\
  (errorShown v = false ->
   (errorShown (snd (loadFreshBeerData (app w) v r)) = true <-> noBeerData r)) /\
  app (fst (init w v r)) =
    loadBeerAvailability (store w) (fst (loadFreshBeerData (app w) v r)) /\
  snd (init w v r) = snd (loadFreshBeerData (app w) v r) /\
  store (fst (init w v r)) = store w.
Proof.
  assert (forall rows,
            loadFreshBeerData (app w) v (responseOk rows) =
            match List.filter qualifies rows with
            | [] => (app w, showError v)
            | l => (setBeers (app w) (List.map entryOf l), hideLoading v)
            end) as Hok.
  { intros rows. unfold loadFreshBeerData. rewrite parseHtmlData_cases.
    destruct (List.filter qualifies rows); reflexivity. }
  repeat split.
  - destruct r as [| |rows]; try reflexivity.
    rewrite Hok. destruct (List.filter qualifies rows); reflexivity.
  - destruct r as [| |rows]; try reflexivity.
    cbn [noBeerData]. intros E. rewrite Hok, E. reflexivity.
  - intros rows -> Hne. rewrite Hok.
    destruct (List.filter qualifies rows); [congruence | reflexivity].
  - destruct r as [| |rows]; cbn [noBeerData]; try (intros _; exact I).
    rewrite Hok. destruct (List.filter qualifies rows); [reflexivity|].
    simpl. congruence.
  - destruct r as [| |rows]; try reflexivity.
    cbn [noBeerData]. intros E. rewrite Hok, E. reflexivity.
  - unfold init. destruct (loadFreshBeerData (app w) v r). reflexivity.
  - unfold init. destruct (loadFreshBeerData (app w) v r). reflexivity.
  - unfold init. destruct (loadFreshBeerData (app w) v r). reflexivity.
Qed.

Lemma loadFreshBeerData_error_or_table_witness :
  loadFreshBeerData (app emptyWorld) loadingView responseNotOk =
    (app emptyWorld, showError loadingView) /\
  errorShown (snd (loadFreshBeerData (app emptyWorld) loadingView (responseOk sampleRows))) =
    false.
Proof.
  split.
  - apply (loadFreshBeerData_error_or_table emptyWorld loadingView responseNotOk). exact I.
  - destruct (loadFreshBeerData_error_or_table emptyWorld loadingView (responseOk sampleRows))
      as (_ & _ & _ & H & _).
    destruct (H eq_refl) as [N _].
    destruct (errorShown (snd (loadFreshBeerData _ _ _))); [|reflexivity].
    specialize (N eq_refl). vm_compute in N. discriminate N.
Defined.

End Loading.

(** ** The two revisions of the filter *)

Section FilterRevisions.

Lemma sublist_List_filter {A} (f g : A -> bool) (l : list A) :
  (forall x, f x = true -> g x = true) -> sublist (List.filter f l) (List.filter g l).
Proof.
  intros H. induction l as [|x l IH]; simpl; [constructor|].
  destruct (f x) eqn:E.
  - rewrite (H x E). now constructor.
  - destruct (g x); [now constructor | exact IH].
Qed.

Lemma category_not_empty (styleText c : string) :
  extractCleanBeerStyle styleText = Some c -> c <> EmptyString.
Proof.
  intros H. apply findCoreType_category in H.
  intros ->. simpl in H. repeat (destruct H as [H | H]; [discriminate|]). exact H.
Qed.

Lemma scriptJs_callback_passes (a : App) (el : Elements) (b : BeerEntry) :
  availabilityFilter el = EmptyString ->
  ScriptJs.filterCallback el b = true -> passes a el b = true.
Proof.
  intros Hav. unfold ScriptJs.filterCallback, passes, ScriptJs.matchesStyle, styleClause,
    matchesAvailability. cbv zeta.
  rewrite Hav, truthy_eqb, negb_involutive. simpl.
  rewrite !andb_true_iff, !orb_true_iff. intros [[[H1 H2] H3] H4].
  repeat split; try assumption. destruct H3 as [H3 | H3]; auto.
Qed.

(** X20.  The filter of [script.js] against the latest revision, with no
    availability chosen.  What [script.js] shows is a sublist of what the
    latest revision shows whenever that one returns, and the same list when
    no style is chosen.  The two differ on a beer whose category is not
    part of its own style text: choosing that category, which the style
    filter offers, hides the beer in [script.js] and keeps it in the latest
    revision. *)
Theorem filterBeers_revisions (a a' : App) (el : Elements) :
  availabilityFilter el = EmptyString ->
  filterBeers a el = (a', Normal tt) ->
  sublist (filteredBeers (ScriptJs.filterBeers a el)) (filteredBeers a') /\
  (styleFilter el = EmptyString ->
   filteredBeers (ScriptJs.filterBeers a el) = filteredBeers a') /\
  (forall b c,
      extractCleanBeerStyle (style b) = Some c ->
      Js.includes (Js.toLowerCase (style b)) (Js.toLowerCase c) = false ->
      ScriptJs.matchesStyle c b = false /\ matchesStyle c b = Normal true).
Proof.
  intros Hav H. unfold filterBeers in H.
  destruct (filterRecords a el (beers a)) as [l|e] eqn:E; [|discriminate].
  injection H as <-. apply filterRecords_Normal in E as [_ ->].
  unfold ScriptJs.filterBeers. simpl. split; [|split].
  - apply sublist_List_filter. intros x. now apply scriptJs_callback_passes.
  - intros Hst. apply filter_ext. intros x.
    unfold ScriptJs.filterCallback, passes, ScriptJs.matchesStyle, styleClause,
      matchesAvailability. cbv zeta.
    rewrite Hav, Hst. simpl. now rewrite !andb_true_r.
  - intros b c Hc Hraw. pose proof (category_not_empty _ _ Hc) as Hne.
    unfold ScriptJs.matchesStyle, matchesStyle. rewrite Hraw, Hc, truthy_eqb, negb_involutive.
    destruct (String.eqb_spec c EmptyString) as [-> | _]; [contradiction|].
    simpl. now rewrite includes_refl.
Qed.

Lemma filterBeers_revisions_witness :
  ScriptJs.matchesStyle "IPA" indiaPaleAle = false /\
  matchesStyle "IPA" indiaPaleAle = Normal true.
Proof.
  destruct (filterBeers_revisions (withBeers [indiaPaleAle])
              (setFilteredBeers (withBeers [indiaPaleAle]) [])
              (controls "Stout" (Js.ofZ 0) (Js.ofZ 20)) eq_refl eq_refl) as (_ & _ & H).
  apply H; reflexivity.
Defined.

End FilterRevisions.
